(** * Drake's Polynomial and TrigPoly: a shallow embedding and its properties

    The development follows [drake/util/Polynomial.cpp] and
    [drake/util/TrigPoly.h].  The only instantiation of the class template is
    [Polynomial<double>], so coefficients are binary64 numbers (Rocq's
    primitive floats); variable identifiers are 32-bit unsigned integers (a
    [Z] with the wrap-around written out), powers are [int]s (a [Z]; signed
    overflow is undefined in C++ and is kept out of the statements by bounds),
    vectors are lists, [std::map] is stdpp's [gmap].  A C++ exception is an
    [outcome] that carries the [what()] string of the [runtime_error]. *)

From Stdlib Require Import ZArith List String Ascii Floats Lia DecimalString.
From stdpp Require Import gmap.
Import ListNotations.

Local Open Scope Z_scope.

(** ** Outcomes of fallible code *)

(** [Ok a]: the call returns [a].  [Throw what]: it leaves by
    [throw runtime_error(what)].  [Undefined]: it runs into behaviour the C++
    standard leaves undefined (arithmetic on a null pointer, an index past the
    end of a vector). *)
Inductive outcome (A : Type) : Type :=
| Ok (a : A)
| Throw (what : string)
| Undefined.

Arguments Ok {A} a.
Arguments Throw {A} what.
Arguments Undefined {A}.

Definition bind {A B : Type} (o : outcome A) (k : A -> outcome B) : outcome B :=
  match o with
  | Ok a => k a
  | Throw what => Throw what
  | Undefined => Undefined
  end.

Notation "'let*' x ':=' o 'in' k" := (bind o (fun x => k))
  (at level 10, x name, o at level 100, k at level 200).

(** ** Machine integers *)

(** [unsigned int] arithmetic is modulo 2^32. *)
Definition UINT_MAX : Z := 4294967295.
Definition wrap32 (z : Z) : Z := z mod (UINT_MAX + 1).

(** Conversion of an [int] to [unsigned int] (as in the comparison of a power
    with an unsigned derivative order). *)
Definition to_unsigned (z : Z) : Z := wrap32 z.

(** Conversion of an [int] to [double]; exact, an [int] has 32 bits. *)
Definition double_of_int (z : Z) : float :=
  if z <? 0 then PrimFloat.opp (PrimFloat.of_uint63 (Uint63.of_Z (- z)))
  else PrimFloat.of_uint63 (Uint63.of_Z z).

(** ** The variable naming scheme (Polynomial.cpp, lines 488-540) *)

Module Naming.

Definition kNameChars : string := "@#_.abcdefghijklmnopqrstuvwxyz".
Definition kNumNameChars : Z := Z.of_nat (String.length kNameChars).
Definition kNameLength : nat := 4.
Definition kMaxNamePart : Z := 923521.

(** C's [strchr]: the offset of the first occurrence of [c] in the string, the
    terminating NUL counting as a character of the string; [None] is the null
    pointer. *)
Fixpoint strchr (s : string) (c : ascii) : option nat :=
  match s with
  | EmptyString => if Ascii.eqb c Ascii.zero then Some O else None
  | String a s' => if Ascii.eqb a c then Some O else option_map S (strchr s' c)
  end.

Definition isValidVariableName (name : string) : bool :=
  if (String.length name <? 1)%nat then false
  else forallb (fun c => match strchr kNameChars c with Some _ => true | None => false end)
         (list_ascii_of_string name).

(** The loop of [variableNameToId], from the last character to the first.
    [strchr(kNameChars, name[i]) - kNameChars] subtracts from a null pointer
    when the character is not found: undefined behaviour. *)
Fixpoint name_part_loop (rev_name : list ascii) (multiplier name_part : Z) : outcome Z :=
  match rev_name with
  | [] => Ok name_part
  | c :: rest =>
      match strchr kNameChars c with
      | None => Undefined
      | Some offset =>
          name_part_loop rest
            (wrap32 (multiplier * (kNumNameChars + 1)))
            (wrap32 (name_part + (Z.of_nat offset + 1) * multiplier))
      end
  end.

Definition maxId : Z := UINT_MAX / 2 / kMaxNamePart.

Definition variableNameToId (name : string) (m : Z) : outcome Z :=
  let* name_part := name_part_loop (rev (list_ascii_of_string name)) 1 0 in
  if kMaxNamePart <? name_part then Throw "name exceeds max allowed"
  else if maxId <? m then Throw "name exceeds max ID"
  else if m <? 1 then Throw "m must be >0"
  else Ok (wrap32 (2 * (name_part + kMaxNamePart * (m - 1)))).

(** [kNameChars[i]]. *)
Definition name_char (i : Z) : ascii :=
  match String.get (Z.to_nat i) kNameChars with
  | Some c => c
  | None => Ascii.zero
  end.

(** The loop of [idToVariableName] over the [kNameLength] positional digits. *)
Fixpoint name_chars_loop (n : nat) (name_part multiplier : Z) : list ascii :=
  match n with
  | O => []
  | S n' =>
      let name_ind := (name_part / multiplier) mod (kNumNameChars + 1) in
      (if 0 <? name_ind then [name_char (name_ind - 1)] else [])
        ++ name_chars_loop n' name_part (multiplier / (kNumNameChars + 1))
  end.

(** [std::to_string] of an unsigned number. *)
Definition to_string (z : Z) : string :=
  NilZero.string_of_uint (N.to_uint (Z.to_N z)).

(** The two parts [idToVariableName] prints: the base name and [m + 1].
    [(unsigned int)std::pow(31.0, 3)] is 29791. *)
Definition idToNameAndIndex (id : Z) : string * Z :=
  let name_part := (id / 2) mod kMaxNamePart in
  let m := id / 2 / kMaxNamePart in
  let multiplier := (kNumNameChars + 1) ^ (Z.of_nat kNameLength - 1) in
  let name := name_chars_loop kNameLength name_part multiplier in
  let name := match name with [] => [name_char 0] | _ => name end in
  (string_of_list_ascii name, wrap32 (m + 1)).

Definition idToVariableName (id : Z) : string :=
  let '(name, index) := idToNameAndIndex id in
  (name ++ to_string index)%string.

End Naming.

(** ** The data model *)

(** Modelled from the spec: Polynomial.h, which declares the types below, is
    not among the sources.  A variable identifier is the [unsigned int] that
    [variableNameToId] and [idToVariableName] compute with, a power is an
    [int], a term is a (variable, power) pair, a monomial a coefficient with
    its vector of terms, a polynomial a vector of monomials with the cached
    [is_univariate] flag; the default-constructed polynomial has no monomial. *)
Definition VarType : Type := Z.
Definition PowerType : Type := Z.

Record Term : Type := mkTerm { var : VarType; power : PowerType }.

Record Monomial : Type := mkMonomial { coefficient : float; terms : list Term }.

Record Polynomial : Type := mkPolynomial { monomials : list Monomial; is_univariate : bool }.

(** Modelled from the spec: [Term::operator==] (Polynomial.h) compares the two
    components of the pair. *)
Definition Term_eqb (a b : Term) : bool := (var a =? var b) && (power a =? power b).

(** The index of the first element that satisfies [f]: the inner [for] loops
    that stop at the first match with [break]. *)
Fixpoint find_index {A : Type} (f : A -> bool) (l : list A) : option nat :=
  match l with
  | [] => None
  | x :: l' => if f x then Some O else option_map S (find_index f l')
  end.

(** [power += p].  The sum is taken in Z: it is the [int] of the source as
    long as it lies between INT_MIN and INT_MAX, beyond which the source
    overflows; the statements about merged powers carry that bound. *)
Definition add_power (p : PowerType) (t : Term) : Term := mkTerm (var t) (power t + p).

Definition add_coefficient (c : float) (m : Monomial) : Monomial :=
  mkMonomial (coefficient m + c)%float (terms m).

Definition scale (c : float) (m : Monomial) : Monomial :=
  mkMonomial (coefficient m * c)%float (terms m).

(** ** Monomial (Polynomial.cpp, lines 8-20 and 101-107) *)

Module Monomial.

Definition hasSameExponents (m other : Monomial) : bool :=
  if negb (length (terms m) =? length (terms other))%nat then false
  else forallb (fun t => existsb (fun o => Term_eqb o t) (terms other)) (terms m).

Definition getDegree (m : Monomial) : Z :=
  match terms m with
  | [] => 0
  | t0 :: rest => fold_left (fun degree t => degree * power t) rest (power t0)
  end.

(** [Monomial::getDegreeOf]: the power of the first term in [v], 0 when no
    term has that variable. *)
Definition getDegreeOf (m : Monomial) (v : VarType) : PowerType :=
  match find (fun t => var t =? v) (terms m) with
  | Some t => power t
  | None => 0
  end.

(** The monomial [factor] returns when the division is not possible. *)
Definition error : Monomial := mkMonomial 0%float [].

(** The first loop of [factor], over the terms of the dividend: [None] is the
    early [return error]. *)
Fixpoint factor_terms (divisor : Monomial) (ts : list Term) : option (list Term) :=
  match ts with
  | [] => Some []
  | t :: rest =>
      let divisor_power := getDegreeOf divisor (var t) in
      if power t <? divisor_power then None
      else
        option_map
          (fun new_terms =>
             if 0 <? power t - divisor_power
             then mkTerm (var t) (power t - divisor_power) :: new_terms
             else new_terms)
          (factor_terms divisor rest)
  end.

(** [Monomial::factor]: the second loop returns [error] when a variable of
    the divisor has degree 0 in the dividend. *)
Definition factor (m divisor : Monomial) : Monomial :=
  match factor_terms divisor (terms m) with
  | None => error
  | Some new_terms =>
      if forallb (fun divisor_term => negb (getDegreeOf m (var divisor_term) =? 0))
           (terms divisor)
      then mkMonomial (coefficient m / coefficient divisor)%float new_terms
      else error
  end.

End Monomial.

(** ** Polynomial (Polynomial.cpp) *)

Module Polynomial.

(** [Polynomial(const CoefficientType& scalar)]. *)
Definition of_scalar (scalar : float) : Polynomial :=
  mkPolynomial [mkMonomial scalar []] true.

(** The loop of [Polynomial(coefficient, terms)], [n] being [i + 1]: term [i]
    is compared with the terms [0 .. i-2] and merged into the first one with
    its variable. *)
Fixpoint merge_duplicate_vars (n : nat) (ts : list Term) (uni : bool) : list Term * bool :=
  match n with
  | O => (ts, uni)
  | S i =>
      match ts !! i, ts !! O with
      | Some ti, Some t0 =>
          let uni := if (0 <? i)%nat && negb (var ti =? var t0) then false else uni in
          match find_index (fun tj => var ti =? var tj) (take (i - 1) ts) with
          | Some j => merge_duplicate_vars i (delete i (alter (add_power (power ti)) j ts)) uni
          | None => merge_duplicate_vars i ts uni
          end
      | _, _ => (ts, uni)
      end
  end.

(** [Polynomial(const CoefficientType coefficient, const vector<Term>& terms)]. *)
Definition of_terms (coeff : float) (ts : list Term) : Polynomial :=
  let '(ts', uni) := merge_duplicate_vars (length ts) ts true in
  mkPolynomial [mkMonomial coeff ts'] uni.

(** The update of [is_univariate] and [unique_var] at the head of an iteration
    of [makeMonomialsUnique]. *)
Definition update_univariate (mi : Monomial) (uni : bool) (unique_var : VarType) : bool * VarType :=
  match terms mi with
  | [] => (uni, unique_var)
  | t0 :: _ =>
      let uni := if (1 <? length (terms mi))%nat then false else uni in
      if negb (var t0 =? unique_var) then
        if 0 <? unique_var then (false, unique_var) else (uni, var t0)
      else (uni, unique_var)
  end.

(** The loop of [makeMonomialsUnique], [n] being [i + 1].  The inner loop is
    [for (j = 0; j < (i - 1); j++)]: monomial [i] is compared with the
    monomials [0 .. i-2]. *)
Fixpoint makeMonomialsUnique_loop (n : nat) (ms : list Monomial) (uni : bool)
    (unique_var : VarType) : list Monomial * bool :=
  match n with
  | O => (ms, uni)
  | S i =>
      match ms !! i with
      | None => (ms, uni)
      | Some mi =>
          let '(uni', unique_var') := update_univariate mi uni unique_var in
          match find_index (Monomial.hasSameExponents mi) (take (i - 1) ms) with
          | Some j =>
              makeMonomialsUnique_loop i
                (delete i (alter (add_coefficient (coefficient mi)) j ms)) uni' unique_var'
          | None => makeMonomialsUnique_loop i ms uni' unique_var'
          end
      end
  end.

Definition makeMonomialsUnique (p : Polynomial) : Polynomial :=
  let '(ms, uni) :=
    makeMonomialsUnique_loop (length (monomials p)) (monomials p) (is_univariate p) 0 in
  mkPolynomial ms uni.

(** [Polynomial(const_iterator start, const_iterator finish)]. *)
Definition of_range (ms : list Monomial) : Polynomial :=
  makeMonomialsUnique (mkPolynomial ms true).

(** [Polynomial(const string varname, const unsigned int num)]. *)
Definition of_name (varname : string) (num : Z) : outcome Polynomial :=
  let* v := Naming.variableNameToId varname num in
  Ok (mkPolynomial [mkMonomial 1%float [mkTerm v 1]] true).

(** [Polynomial(const CoefficientType& coeff, const VarType& v)]. *)
Definition of_variable (coeff : float) (v : VarType) : Polynomial :=
  mkPolynomial [mkMonomial coeff [mkTerm v 1]] true.

(** The body of the loop of [getDegree]. *)
Definition max_degree_step (max_degree : Z) (m : Monomial) : Z :=
  let monomial_degree := Monomial.getDegree m in
  if max_degree <? monomial_degree then monomial_degree else max_degree.

Definition getDegree (p : Polynomial) : Z :=
  fold_left max_degree_step (monomials p) 0.

Definition getSimpleVariable (p : Polynomial) : VarType :=
  match monomials p with
  | [m] => match terms m with
           | [t] => if negb (power t =? 1) then 0 else var t
           | _ => 0
           end
  | _ => 0
  end.

Definition not_univariate : string :=
  "getCoefficients is only defined for univariate polynomials".

(** The index a monomial is stored at in the dense vector. *)
Definition coefficient_index (m : Monomial) : Z :=
  match terms m with
  | [] => 0
  | t0 :: _ => power t0
  end.

(** [coefficients[index] = value] on the Eigen vector; an index outside the
    vector is undefined. *)
Definition store (coefficients : list float) (index : Z) (value : float) : outcome (list float) :=
  if (0 <=? index) && (index <? Z.of_nat (length coefficients))
  then Ok (<[Z.to_nat index := value]> coefficients)
  else Undefined.

(** [getCoefficients].  The size [deg + 1] of the vector is taken in Z: it is
    the [int] of the source for every degree below INT_MAX; the statements
    about vectors of computed degree carry that bound. *)
Definition getCoefficients (p : Polynomial) : outcome (list float) :=
  if negb (is_univariate p) then Throw not_univariate
  else
    let deg := getDegree p in
    fold_left (fun acc m => let* coefficients := acc in
                            store coefficients (coefficient_index m) (coefficient m))
      (monomials p) (Ok (repeat 0%float (Z.to_nat (deg + 1)))).

Definition subs (orig replacement : VarType) (p : Polynomial) : Polynomial :=
  mkPolynomial
    (map (fun m => mkMonomial (coefficient m)
                     (map (fun t => if var t =? orig then mkTerm replacement (power t) else t)
                        (terms m)))
       (monomials p))
    (is_univariate p).

(** [std::pow] is the C library's; the model takes it as an argument. *)
Section EvaluatePartial.

Variable std_pow : float -> PowerType -> float.

(** The inner loop of [evaluatePartial] over the terms of one monomial. *)
Definition evaluate_terms (var_values : gmap Z float) (m : Monomial) : Monomial :=
  let '(new_coefficient, new_terms) :=
    fold_left (fun '(new_coefficient, new_terms) t =>
                 match var_values !! var t with
                 | Some value => ((new_coefficient * std_pow value (power t))%float, new_terms)
                 | None => (new_coefficient, new_terms ++ [t])
                 end)
      (terms m) (coefficient m, []) in
  mkMonomial new_coefficient new_terms.

Definition evaluatePartial (var_values : gmap Z float) (p : Polynomial) : Polynomial :=
  of_range (map (evaluate_terms var_values) (monomials p)).

End EvaluatePartial.

(** One monomial of [derivative]: dropped when it is a constant or its power
    is below the order; [power >= derivative_order] compares as unsigned. *)
Definition differentiate (derivative_order : Z) (m : Monomial) : list Monomial :=
  match terms m with
  | [] => []
  | t0 :: rest =>
      if derivative_order <=? to_unsigned (power t0) then
        let '(c, pw) :=
          Nat.iter (Z.to_nat derivative_order)
            (fun '(c, pw) => ((c * double_of_int pw)%float, pw - 1))
            (coefficient m, power t0) in
        [mkMonomial c (if pw <? 1 then rest else mkTerm (var t0) pw :: rest)]
      else []
  end.

Definition derivative (derivative_order : Z) (p : Polynomial) : outcome Polynomial :=
  if negb (is_univariate p) then Throw not_univariate
  else Ok (mkPolynomial (flat_map (differentiate derivative_order) (monomials p)) true).

(** The variable of the first monomial that has a term, 0 when there is none
    (the inner loop of [integral]). *)
Definition first_variable (ms : list Monomial) : VarType :=
  match find (fun m => match terms m with [] => false | _ => true end) ms with
  | Some m => match terms m with t0 :: _ => var t0 | [] => 0 end
  | None => 0
  end.

(** The loop of [integral]: [done] are the monomials already rewritten in
    place, [todo] the ones from the iterator on. *)
Fixpoint integral_loop (done todo : list Monomial) : outcome (list Monomial) :=
  match todo with
  | [] => Ok done
  | m :: rest =>
      match terms m with
      | [] =>
          let v := first_variable (done ++ todo) in
          if v <? 1 then Throw "don't know the variable name"
          else integral_loop (done ++ [mkMonomial (coefficient m) [mkTerm v 1]]) rest
      | t0 :: ts =>
          integral_loop
            (done ++ [mkMonomial (coefficient m / double_of_int (power t0 + 1))%float
                        (mkTerm (var t0) (power t0 + 1) :: ts)])
            rest
      end
  end.

Definition integral (integration_constant : float) (p : Polynomial) : outcome Polynomial :=
  if negb (is_univariate p) then Throw not_univariate
  else
    let* ms := integral_loop [] (monomials p) in
    Ok (mkPolynomial (ms ++ [mkMonomial integration_constant []]) true).

(** [operator+=(const Polynomial&)]. *)
Definition add_assign (p other : Polynomial) : Polynomial :=
  makeMonomialsUnique (mkPolynomial (monomials p ++ monomials other) (is_univariate p)).

(** [operator-=(const Polynomial&)]. *)
Definition sub_assign (p other : Polynomial) : Polynomial :=
  makeMonomialsUnique
    (mkPolynomial (monomials p ++ map (scale (-1)%float) (monomials other)) (is_univariate p)).

(** The loop over the other monomial's terms in [operator*=]. *)
Definition multiply_terms (ts other_terms : list Term) : list Term :=
  fold_left (fun acc ot =>
               match find_index (fun t => var t =? var ot) acc with
               | Some j => alter (add_power (power ot)) j acc
               | None => acc ++ [ot]
               end)
    other_terms ts.

Definition multiply_monomials (a b : Monomial) : Monomial :=
  mkMonomial (coefficient a * coefficient b)%float (multiply_terms (terms a) (terms b)).

(** [operator*=(const Polynomial&)]. *)
Definition mul_assign (p other : Polynomial) : Polynomial :=
  makeMonomialsUnique
    (mkPolynomial
       (flat_map (fun a => map (multiply_monomials a) (monomials other)) (monomials p))
       (is_univariate p)).

(** [operator+=(const CoefficientType&)] and [operator-=]: the first constant
    monomial takes the scalar, a new one is appended when there is none. *)
Fixpoint add_to_constant (c : float) (ms : list Monomial) : option (list Monomial) :=
  match ms with
  | [] => None
  | m :: rest =>
      match terms m with
      | [] => Some (add_coefficient c m :: rest)
      | _ => option_map (cons m) (add_to_constant c rest)
      end
  end.

Definition sub_from_constant (c : float) (m : Monomial) : Monomial :=
  mkMonomial (coefficient m - c)%float (terms m).

Fixpoint subtract_from_constant (c : float) (ms : list Monomial) : option (list Monomial) :=
  match ms with
  | [] => None
  | m :: rest =>
      match terms m with
      | [] => Some (sub_from_constant c m :: rest)
      | _ => option_map (cons m) (subtract_from_constant c rest)
      end
  end.

Definition add_assign_scalar (p : Polynomial) (scalar : float) : Polynomial :=
  match add_to_constant scalar (monomials p) with
  | Some ms => mkPolynomial ms (is_univariate p)
  | None => mkPolynomial (monomials p ++ [mkMonomial scalar []]) (is_univariate p)
  end.

Definition sub_assign_scalar (p : Polynomial) (scalar : float) : Polynomial :=
  match subtract_from_constant scalar (monomials p) with
  | Some ms => mkPolynomial ms (is_univariate p)
  | None => mkPolynomial (monomials p ++ [mkMonomial (- scalar)%float []]) (is_univariate p)
  end.

Definition mul_assign_scalar (p : Polynomial) (scalar : float) : Polynomial :=
  mkPolynomial (map (scale scalar) (monomials p)) (is_univariate p).

Definition div_assign_scalar (p : Polynomial) (scalar : float) : Polynomial :=
  mkPolynomial (map (fun m => mkMonomial (coefficient m / scalar)%float (terms m)) (monomials p))
    (is_univariate p).

(** The value-returning operators copy [*this] and apply the compound one. *)
Definition add (p other : Polynomial) : Polynomial := add_assign p other.
Definition sub (p other : Polynomial) : Polynomial := sub_assign p other.
Definition mul (p other : Polynomial) : Polynomial := mul_assign p other.

Definition neg (p : Polynomial) : Polynomial :=
  mkPolynomial (map (fun m => mkMonomial (- coefficient m)%float (terms m)) (monomials p))
    (is_univariate p).

(** Modelled from the spec: the friend [operator-(const Polynomial&, const
    CoefficientType&)] is defined in Polynomial.h, which is not among the
    sources; the value-returning form of the scalar subtraction copies the
    polynomial and applies the scalar [operator-=], as its TrigPoly
    counterpart does. *)
Definition sub_scalar (p : Polynomial) (scalar : float) : Polynomial :=
  sub_assign_scalar p scalar.

(** [operator/(const CoefficientType&)]. *)
Definition div_scalar (p : Polynomial) (scalar : float) : Polynomial :=
  div_assign_scalar p scalar.

Definition getNumberOfCoefficients (p : Polynomial) : Z :=
  Z.of_nat (length (monomials p)).

(** [getVariables]: every variable of every term is inserted into the set. *)
Definition getVariables (p : Polynomial) : gset Z :=
  fold_left (fun vars m => fold_left (fun vars t => {[ var t ]} ∪ vars) (terms m) vars)
    (monomials p) ∅.

(** [roots]: Eigen's [PolynomialSolver] is taken as an argument; a root is a
    complex number, the pair of its real and imaginary parts. *)
Section Roots.

Variable polynomial_solver : list float -> list (float * float).

Definition roots (p : Polynomial) : outcome (list (float * float)) :=
  if negb (is_univariate p) then Throw not_univariate
  else
    let* coefficients := getCoefficients p in
    match Z.of_nat (length coefficients) - 1 with
    | 0 => Ok []
    | 1 =>
        match coefficients with
        | [c0; c1] => Ok [((- c0 / c1)%float, 0%float)]
        | _ => Undefined
        end
    | _ => Ok (polynomial_solver coefficients)
    end.

End Roots.

End Polynomial.

(** ** TrigPoly (TrigPoly.h) *)

Module SinCosVars.

Record t : Type := mk { s : VarType; c : VarType }.

End SinCosVars.

Abbreviation SinCosMap := (gmap Z SinCosVars.t).

Record TrigPoly : Type := mkTrigPoly { poly : Polynomial; sin_cos_map : SinCosMap }.

(** A recursive call that may run out of fuel: [None] is "no answer yet". *)
Definition bind_fuel {A B : Type} (o : option (outcome A)) (k : A -> option (outcome B))
    : option (outcome B) :=
  match o with
  | None => None
  | Some (Ok a) => k a
  | Some (Throw what) => Some (Throw what)
  | Some Undefined => Some Undefined
  end.

Notation "'call*' x ':=' o 'in' k" := (bind_fuel o (fun x => k))
  (at level 10, x name, o at level 100, k at level 200).

Module TrigPoly.

(** [TrigPoly(const CoefficientType& scalar)]. *)
Definition of_scalar (scalar : float) : TrigPoly :=
  mkTrigPoly (Polynomial.of_scalar scalar) ∅.

(** [TrigPoly(const PolyType& p, const SinCosMap& _sin_cos_map)]. *)
Definition of_polynomial (p : Polynomial) (m : SinCosMap) : TrigPoly := mkTrigPoly p m.

Definition not_simple : string :=
  "q, s, and c must all be simple polynomials (in the msspoly sense)".

(** [TrigPoly(const PolyType& q, const PolyType& s, const PolyType& c)]. *)
Definition of_sin_cos (q s c : Polynomial) : outcome TrigPoly :=
  if negb (Polynomial.getDegree q =? 1) || negb (Polynomial.getDegree s =? 1)
     || negb (Polynomial.getDegree c =? 1)
  then Throw not_simple
  else
    let sc := SinCosVars.mk (Polynomial.getSimpleVariable s) (Polynomial.getSimpleVariable c) in
    Ok (mkTrigPoly q (<[Polynomial.getSimpleVariable q := sc]> ∅)).

(** [sin_cos_map.insert(other.begin(), other.end())]: [std::map::insert]
    adds an element only when the map holds no element with its key. *)
Definition insert_range (m other : SinCosMap) : SinCosMap :=
  map_fold (fun k v acc => match acc !! k with
                           | Some _ => acc
                           | None => <[k := v]> acc
                           end) m other.

Definition add_assign (p other : TrigPoly) : TrigPoly :=
  mkTrigPoly (Polynomial.add_assign (poly p) (poly other))
    (insert_range (sin_cos_map p) (sin_cos_map other)).

Definition sub_assign (p other : TrigPoly) : TrigPoly :=
  mkTrigPoly (Polynomial.sub_assign (poly p) (poly other))
    (insert_range (sin_cos_map p) (sin_cos_map other)).

Definition mul_assign (p other : TrigPoly) : TrigPoly :=
  mkTrigPoly (Polynomial.mul_assign (poly p) (poly other))
    (insert_range (sin_cos_map p) (sin_cos_map other)).

Definition add_assign_scalar (p : TrigPoly) (scalar : float) : TrigPoly :=
  mkTrigPoly (Polynomial.add_assign_scalar (poly p) scalar) (sin_cos_map p).

Definition sub_assign_scalar (p : TrigPoly) (scalar : float) : TrigPoly :=
  mkTrigPoly (Polynomial.sub_assign_scalar (poly p) scalar) (sin_cos_map p).

Definition mul_assign_scalar (p : TrigPoly) (scalar : float) : TrigPoly :=
  mkTrigPoly (Polynomial.mul_assign_scalar (poly p) scalar) (sin_cos_map p).

Definition div_assign_scalar (p : TrigPoly) (scalar : float) : TrigPoly :=
  mkTrigPoly (Polynomial.div_assign_scalar (poly p) scalar) (sin_cos_map p).

(** The value-returning operators copy [*this] and apply the compound one. *)
Definition add (p other : TrigPoly) : TrigPoly := add_assign p other.
Definition sub (p other : TrigPoly) : TrigPoly := sub_assign p other.
Definition mul (p other : TrigPoly) : TrigPoly := mul_assign p other.

Definition sin_degree : string := "sin of polynomials with degree > 1 is not supported".
Definition cos_degree : string := "cos of polynomials with degree > 1 is not supported".
Definition not_in_map : string :=
  "tried taking the sin of a variable that does not exist in my sin_cos_map".
Definition please_implement : string :=
  "Drake:TrigPoly:PleaseImplementMe.  need to handle this case (like I do in the matlab version".

(** [std::sin] and [std::cos] are the C library's; the model takes them as
    arguments. *)
Section Trig.

Variables std_sin std_cos : float -> float.

(** The branch [m.size() == 1] of [sin]. *)
Definition sin_monomial (p : TrigPoly) (m0 : Monomial) : outcome TrigPoly :=
  match terms m0 with
  | [] => Ok (mkTrigPoly (Polynomial.of_scalar (std_sin (coefficient m0))) (sin_cos_map p))
  | t0 :: _ =>
      match sin_cos_map p !! var t0 with
      | None => Throw not_in_map
      | Some sc =>
          if negb (PrimFloat.abs (coefficient m0) =? 1)%float then Throw please_implement
          else Ok (mkTrigPoly (Polynomial.subs (var t0) (SinCosVars.s sc) (poly p))
                     (sin_cos_map p))
      end
  end.

(** The branch [m.size() == 1] of [cos]. *)
Definition cos_monomial (p : TrigPoly) (m0 : Monomial) : outcome TrigPoly :=
  match terms m0 with
  | [] => Ok (mkTrigPoly (Polynomial.of_scalar (std_cos (coefficient m0))) (sin_cos_map p))
  | t0 :: _ =>
      match sin_cos_map p !! var t0 with
      | None => Throw not_in_map
      | Some sc =>
          if negb (PrimFloat.abs (coefficient m0) =? 1)%float then Throw please_implement
          else
            let ret := mkTrigPoly (Polynomial.subs (var t0) (SinCosVars.c sc) (poly p))
                         (sin_cos_map p) in
            Ok (if (coefficient m0 =? -1)%float then mul_assign_scalar ret (-1)%float else ret)
      end
  end.

(** [sin] and [cos] call each other on the first monomial and on the
    polynomial of the others; [fuel] bounds the depth of the calls.  The
    operands of [sin(a) * cos(b) + cos(a) * sin(b)] are evaluated from left to
    right (C++ leaves the order open; the calls have no effect but a throw).
    [m[0]] of a polynomial without monomials is undefined. *)
Fixpoint sin_fuel (fuel : nat) (p : TrigPoly) : option (outcome TrigPoly) :=
  match fuel with
  | O => None
  | S fuel' =>
      if 1 <? Polynomial.getDegree (poly p) then Some (Throw sin_degree)
      else
        match monomials (poly p) with
        | [] => Some Undefined
        | [m0] => Some (sin_monomial p m0)
        | m0 :: rest =>
            let a := mkTrigPoly (Polynomial.of_terms (coefficient m0) (terms m0)) (sin_cos_map p) in
            let b := mkTrigPoly (Polynomial.of_range rest) (sin_cos_map p) in
            call* sin_a := sin_fuel fuel' a in
            call* cos_b := cos_fuel fuel' b in
            call* cos_a := cos_fuel fuel' a in
            call* sin_b := sin_fuel fuel' b in
            Some (Ok (add (mul sin_a cos_b) (mul cos_a sin_b)))
        end
  end
with cos_fuel (fuel : nat) (p : TrigPoly) : option (outcome TrigPoly) :=
  match fuel with
  | O => None
  | S fuel' =>
      if 1 <? Polynomial.getDegree (poly p) then Some (Throw cos_degree)
      else
        match monomials (poly p) with
        | [] => Some Undefined
        | [m0] => Some (cos_monomial p m0)
        | m0 :: rest =>
            let a := mkTrigPoly (Polynomial.of_terms (coefficient m0) (terms m0)) (sin_cos_map p) in
            let b := mkTrigPoly (Polynomial.of_range rest) (sin_cos_map p) in
            call* cos_a := cos_fuel fuel' a in
            call* cos_b := cos_fuel fuel' b in
            call* sin_a := sin_fuel fuel' a in
            call* sin_b := sin_fuel fuel' b in
            Some (Ok (sub (mul cos_a cos_b) (mul sin_a sin_b)))
        end
  end.

(** The depth of the calls never exceeds the number of monomials. *)
Definition sin (p : TrigPoly) : option (outcome TrigPoly) :=
  sin_fuel (S (length (monomials (poly p)))) p.

Definition cos (p : TrigPoly) : option (outcome TrigPoly) :=
  cos_fuel (S (length (monomials (poly p)))) p.

End Trig.

(** The unary [operator-()] initialises its result [ret] with the negation
    of the object it is called on and returns it: the operand is a TrigPoly
    again, so the operator calls itself; [fuel] bounds the depth of the
    calls. *)
Fixpoint neg_fuel (fuel : nat) (p : TrigPoly) : option (outcome TrigPoly) :=
  match fuel with
  | O => None
  | S fuel' =>
      call* ret := neg_fuel fuel' p in
      Some (Ok ret)
  end.

(** The friend operators with a scalar: [p + scalar], [scalar + p],
    [p - scalar], [scalar - p] (which negates [p] first), [p * scalar],
    [scalar * p] and [p / scalar]. *)
Definition add_scalar (p : TrigPoly) (scalar : float) : TrigPoly := add_assign_scalar p scalar.
Definition scalar_add (scalar : float) (p : TrigPoly) : TrigPoly := add_assign_scalar p scalar.
Definition sub_scalar (p : TrigPoly) (scalar : float) : TrigPoly := sub_assign_scalar p scalar.

Definition scalar_sub_fuel (fuel : nat) (scalar : float) (p : TrigPoly)
    : option (outcome TrigPoly) :=
  call* ret := neg_fuel fuel p in
  Some (Ok (add_assign_scalar ret scalar)).

Definition mul_scalar (p : TrigPoly) (scalar : float) : TrigPoly := mul_assign_scalar p scalar.
Definition scalar_mul (scalar : float) (p : TrigPoly) : TrigPoly := mul_assign_scalar p scalar.
Definition div_scalar (p : TrigPoly) (scalar : float) : TrigPoly := div_assign_scalar p scalar.

End TrigPoly.

(** ** The vocabulary of the statements *)

Definition INT_MAX : Z := 2147483647.
Definition INT_MIN : Z := -2147483648.

(** A value that an [int] holds. *)
Definition int_range (z : Z) : Prop := INT_MIN <= z <= INT_MAX.



(** A character of the 30-symbol naming alphabet. *)
Definition in_alphabet (c : ascii) : bool :=
  existsb (Ascii.eqb c) (list_ascii_of_string Naming.kNameChars).

(** The characters [idToVariableName] prints for one positional digit. *)
Definition digit_chars (d : Z) : list ascii :=
  if 0 <? d then [Naming.name_char (d - 1)] else [].

(** No two monomials of the collection have identical exponent vectors. *)
Fixpoint unique_exponents (ms : list Monomial) : bool :=
  match ms with
  | [] => true
  | m :: rest =>
      forallb (fun m' => negb (Monomial.hasSameExponents m' m)) rest && unique_exponents rest
  end.

(** From position [i] on, no monomial has the exponents of a monomial two or
    more places before it. *)
Definition separated_from (i : nat) (ms : list Monomial) : Prop :=
  forall a b ma mb,
    ms !! a = Some ma -> ms !! b = Some mb -> (i <= b)%nat -> (a + 2 <= b)%nat ->
    Monomial.hasSameExponents mb ma = false.

(** A [pow] for the examples: repeated multiplication, exact on the values
    they use. *)
Definition pow_by_multiplication (x : float) (n : PowerType) : float :=
  Nat.iter (Z.to_nat n) (fun acc => (acc * x)%float) 1%float.

(** A monomial "with the assigned terms removed and their value^power folded
    into the coefficient". *)
Section Substitution.

Variable std_pow : float -> PowerType -> float.

Definition assigned (var_values : gmap Z float) (t : Term) : bool :=
  match var_values !! var t with
  | Some _ => true
  | None => false
  end.

Definition fold_value (var_values : gmap Z float) (c : float) (t : Term) : float :=
  match var_values !! var t with
  | Some value => (c * std_pow value (power t))%float
  | None => c
  end.

Definition substituted (var_values : gmap Z float) (m : Monomial) : Monomial :=
  mkMonomial (fold_left (fold_value var_values) (terms m) (coefficient m))
    (List.filter (fun t => negb (assigned var_values t)) (terms m)).

End Substitution.

(** The binary operations of TrigPoly. *)
Definition binary_operations : list (TrigPoly -> TrigPoly -> TrigPoly) :=
  [TrigPoly.add_assign; TrigPoly.sub_assign; TrigPoly.mul_assign;
   TrigPoly.add; TrigPoly.sub; TrigPoly.mul].

Definition is_constant (m : Monomial) : bool :=
  match terms m with
  | [] => true
  | _ => false
  end.

(** A monomial of a univariate polynomial in [x]: a constant, or one power of
    [x] that [integral] can raise without overflow. *)
Definition monomial_in (x : VarType) (m : Monomial) : bool :=
  match terms m with
  | [] => true
  | [t] => (var t =? x) && (1 <=? power t) && (power t <? INT_MAX)
  | _ => false
  end.

Definition univariate_in (x : VarType) (p : Polynomial) : bool :=
  is_univariate p && forallb (monomial_in x) (monomials p).

Definition has_variable (p : Polynomial) : bool :=
  existsb (fun m => negb (is_constant m)) (monomials p).

(** The first term of every monomial that has one is a power of [x]. *)
Definition leads_with (x : VarType) (m : Monomial) : bool :=
  match terms m with
  | [] => true
  | t :: _ => var t =? x
  end.

(** What the loop of [integral] makes of one monomial of a polynomial in [x]. *)
Definition integrate_monomial (x : VarType) (m : Monomial) : Monomial :=
  match terms m with
  | [] => mkMonomial (coefficient m) [mkTerm x 1]
  | t0 :: ts =>
      mkMonomial (coefficient m / double_of_int (power t0 + 1))%float
        (mkTerm (var t0) (power t0 + 1) :: ts)
  end.

(** What [derivative] makes of the integral of one monomial: the same terms,
    the coefficient divided and multiplied back in binary64 arithmetic. *)
Definition round_trip (m : Monomial) : Monomial :=
  match terms m with
  | [] => mkMonomial (coefficient m * double_of_int 1)%float []
  | t0 :: _ =>
      mkMonomial
        (coefficient m / double_of_int (power t0 + 1) * double_of_int (power t0 + 1))%float
        (terms m)
  end.



(** A name that [variableNameToId] is meant for: 1 to 4 characters, all of
    the naming alphabet. *)
Definition valid_name (name : string) : Prop :=
  (1 <= String.length name <= 4)%nat /\
  forallb in_alphabet (list_ascii_of_string name) = true.

(** The value of the four positional digits of a name. *)
Definition digits_value (d1 d2 d3 d4 : Z) : Z := d1 * 29791 + d2 * 961 + d3 * 31 + d4.

(** Some term of some monomial of the collection is a power of [v]. *)
Definition mentions (ms : list Monomial) (v : VarType) : Prop :=
  exists m t, m ∈ ms /\ t ∈ terms m /\ var t = v.

(** Every variable identifier of the collection is positive (0 is the value
    of [unique_var] and of [getSimpleVariable] for no variable). *)
Definition positive_variables (ms : list Monomial) : Prop :=
  forall m t, m ∈ ms -> t ∈ terms m -> 0 < var t.

(** A constant, or a single power of [x]. *)
Definition power_of (x : VarType) (m : Monomial) : Prop :=
  terms m = [] \/ exists pw, terms m = [mkTerm x pw].

(** [getDegreeOf] on a list of terms. *)
Definition degree_in (ts : list Term) (v : VarType) : Z :=
  Monomial.getDegreeOf (mkMonomial 0%float ts) v.

(** What a term of the right-hand monomial adds to the power of [v]. *)
Definition added_power (ot : Term) (v : VarType) : Z :=
  if var ot =? v then power ot else 0.

(** The first power of every monomial that has a term is at least 1. *)
Definition positive_power (m : Monomial) : bool :=
  match terms m with
  | [] => true
  | t :: _ => 1 <=? power t
  end.

(** A constant or a single power that is not negative. *)
Definition one_term (m : Monomial) : bool :=
  match terms m with
  | [] => true
  | [t] => 0 <=? power t
  | _ => false
  end.

(** ** The polynomials of the examples *)

(** [Polynomial x("x")], [y("y")], [z("z")]: the identifiers are 56, 58, 60. *)
Definition x_id : VarType := 56.
Definition y_id : VarType := 58.
Definition z_id : VarType := 60.
Definition s_id : VarType := 46.
Definition c_id : VarType := 14.

Definition poly_x : Polynomial := Polynomial.of_variable 1%float x_id.
Definition poly_y : Polynomial := Polynomial.of_variable 1%float y_id.
Definition poly_z : Polynomial := Polynomial.of_variable 1%float z_id.

(** [x - 1]. *)
Definition x_minus_1 : Polynomial := Polynomial.sub_scalar poly_x 1%float.

(** [x * y + z + x]. *)
Definition xy_plus_z_plus_x : Polynomial :=
  Polynomial.add (Polynomial.add (Polynomial.mul poly_x poly_y) poly_z) poly_x.

(** [TrigPoly x(q, s, c)] for [q("x")], [s("s")], [c("c")]. *)
Definition trig_x : TrigPoly :=
  mkTrigPoly poly_x {[ x_id := SinCosVars.mk s_id c_id ]}.

(** A stand-in for [std::sin] and [std::cos] where an example needs a closed
    term: no example takes the sine or the cosine of a number. *)
Definition not_called (x : float) : float := PrimFloat.nan.

(** A string of the single character NUL. *)
Definition nul_name : string := String Ascii.zero EmptyString.

(** ** Tactics *)

(** One iteration of the encoding loop on a character of the alphabet: [step]
    is the equation of the loop body, [small] the fact that a number below
    2^32 does not wrap around. *)
Ltac encode_step_with step small :=
  match goal with
  | E : Naming.strchr _ ?c = Some _ |- context [Naming.name_part_loop (?c :: _) _ _] =>
      rewrite (step _ _ _ _ _ E)
  end;
  match goal with
  | |- context [wrap32 (?a * 31)] =>
      let v := eval vm_compute in (wrap32 (a * 31)) in change (wrap32 (a * 31)) with v
  end;
  rewrite (small (_ + _ * _)) by lia.

(** * Properties *)

(** ** The naming scheme *)

Example kNumNameChars_30 : Naming.kNumNameChars = 30.
Proof. reflexivity. Qed.

Example maxId_2325 : Naming.maxId = 2325.
Proof. reflexivity. Qed.

Example identifiers_of_the_examples :
  Naming.variableNameToId "x" 1 = Ok x_id /\ Naming.variableNameToId "y" 1 = Ok y_id /\
  Naming.variableNameToId "z" 1 = Ok z_id /\ Naming.variableNameToId "s" 1 = Ok s_id /\
  Naming.variableNameToId "c" 1 = Ok c_id.
Proof. repeat split. Qed.

Example of_name_x : Polynomial.of_name "x" 1 = Ok poly_x.
Proof. reflexivity. Qed.

Lemma wrap32_small z : 0 <= z < 4294967296 -> wrap32 z = z.
Proof.
  intros H. unfold wrap32. change (UINT_MAX + 1) with 4294967296. apply Z.mod_small, H.
Qed.

Lemma strchr_in_alphabet c :
  in_alphabet c = true ->
  exists offset, Naming.strchr Naming.kNameChars c = Some offset /\
                 (offset < 30)%nat /\ Naming.name_char (Z.of_nat offset) = c.
Proof.
  unfold in_alphabet. cbn [Naming.kNameChars list_ascii_of_string existsb].
  intros H.
  repeat (apply orb_prop in H; destruct H as [H | H];
          [ apply Ascii.eqb_eq in H; subst c; eexists;
            split; [ vm_compute; reflexivity | split; [ lia | reflexivity ] ] | ]).
  discriminate.
Qed.

Lemma name_chars_loop_digits d1 d2 d3 d4 :
  0 <= d1 <= 30 -> 0 <= d2 <= 30 -> 0 <= d3 <= 30 -> 0 <= d4 <= 30 ->
  Naming.name_chars_loop 4 (d1 * 29791 + d2 * 961 + d3 * 31 + d4) 29791 =
  digit_chars d1 ++ digit_chars d2 ++ digit_chars d3 ++ digit_chars d4.
Proof.
  intros H1 H2 H3 H4.
  unfold Naming.name_chars_loop.
  change (Naming.kNumNameChars + 1) with 31.
  change (29791 / 31) with 961. change (961 / 31) with 31. change (31 / 31) with 1.
  set (np := d1 * 29791 + d2 * 961 + d3 * 31 + d4).
  assert (E1 : (np / 29791) mod 31 = d1) by (subst np; Z.div_mod_to_equations; lia).
  assert (E2 : (np / 961) mod 31 = d2) by (subst np; Z.div_mod_to_equations; lia).
  assert (E3 : (np / 31) mod 31 = d3) by (subst np; Z.div_mod_to_equations; lia).
  assert (E4 : (np / 1) mod 31 = d4) by (subst np; Z.div_mod_to_equations; lia).
  rewrite E1, E2, E3, E4. unfold digit_chars. rewrite app_nil_r. reflexivity.
Qed.

Lemma name_part_loop_cons c rest mult np o :
  Naming.strchr Naming.kNameChars c = Some o ->
  Naming.name_part_loop (c :: rest) mult np =
  Naming.name_part_loop rest (wrap32 (mult * 31)) (wrap32 (np + (Z.of_nat o + 1) * mult)).
Proof. intros E. cbn [Naming.name_part_loop]. rewrite E. reflexivity. Qed.

Lemma digit_chars_offset c o :
  (o < 30)%nat -> Naming.name_char (Z.of_nat o) = c -> digit_chars (Z.of_nat o + 1) = [c].
Proof.
  intros Hlt Hc. unfold digit_chars.
  destruct (0 <? Z.of_nat o + 1) eqn:E; [ | apply Z.ltb_ge in E; lia ].
  replace (Z.of_nat o + 1 - 1) with (Z.of_nat o) by lia. now rewrite Hc.
Qed.

Lemma decode_id np m :
  0 <= np < 923521 -> 1 <= m <= 2325 ->
  let id := wrap32 (2 * (np + 923521 * (m - 1))) in
  (id / 2) mod 923521 = np /\ wrap32 (id / 2 / 923521 + 1) = m.
Proof.
  intros Hnp Hm id. subst id.
  rewrite wrap32_small by lia.
  replace (2 * (np + 923521 * (m - 1)) / 2) with (np + 923521 * (m - 1))
    by (Z.div_mod_to_equations; lia).
  split.
  - Z.div_mod_to_equations; lia.
  - replace ((np + 923521 * (m - 1)) / 923521) with (m - 1)
      by (Z.div_mod_to_equations; lia).
    rewrite wrap32_small by lia. lia.
Qed.

(** The round trip for a name given by its four positional digits, the
    leading ones 0 for a name of fewer than four characters. *)
Lemma roundtrip_of_digits (name : string) (m d1 d2 d3 d4 : Z) :
  1 <= m <= 2325 ->
  0 <= d1 <= 30 -> 0 <= d2 <= 30 -> 0 <= d3 <= 30 -> 1 <= d4 <= 30 ->
  Naming.name_part_loop (rev (list_ascii_of_string name)) 1 0 =
    Ok (d1 * 29791 + d2 * 961 + d3 * 31 + d4) ->
  digit_chars d1 ++ digit_chars d2 ++ digit_chars d3 ++ digit_chars d4 =
    list_ascii_of_string name ->
  exists id,
    Naming.variableNameToId name m = Ok id /\
    Naming.idToNameAndIndex id = (name, m) /\
    Naming.idToVariableName id = (name ++ Naming.to_string m)%string.
Proof.
  intros Hm H1 H2 H3 H4 Henc Hdig.
  set (np := d1 * 29791 + d2 * 961 + d3 * 31 + d4) in *.
  assert (Hnp : 0 <= np < 923521) by (subst np; lia).
  destruct (decode_id np m Hnp Hm) as [Ea Eb]. cbv zeta in Ea, Eb.
  assert (Eparts : Naming.idToNameAndIndex (wrap32 (2 * (np + 923521 * (m - 1)))) = (name, m)).
  { unfold Naming.idToNameAndIndex. change Naming.kMaxNamePart with 923521.
    rewrite Ea, Eb.
    change ((Naming.kNumNameChars + 1) ^ (Z.of_nat Naming.kNameLength - 1)) with 29791.
    change Naming.kNameLength with 4%nat.
    subst np. rewrite name_chars_loop_digits by lia. rewrite Hdig.
    destruct (list_ascii_of_string name) eqn:El.
    - unfold digit_chars in Hdig. destruct (0 <? d4) eqn:E4; [ | apply Z.ltb_ge in E4; lia ].
      apply (f_equal (@length ascii)) in Hdig. rewrite !length_app in Hdig. cbn in Hdig. lia.
    - rewrite <- El, string_of_list_ascii_of_string. reflexivity. }
  exists (wrap32 (2 * (np + 923521 * (m - 1)))). split; [ | split ].
  - unfold Naming.variableNameToId. rewrite Henc. cbn [bind].
    change Naming.kMaxNamePart with 923521. change Naming.maxId with 2325.
    destruct (923521 <? np) eqn:E1; [ apply Z.ltb_lt in E1; lia | ].
    destruct (2325 <? m) eqn:E2; [ apply Z.ltb_lt in E2; lia | ].
    destruct (m <? 1) eqn:E3; [ apply Z.ltb_lt in E3; lia | ].
    reflexivity.
  - exact Eparts.
  - unfold Naming.idToVariableName. rewrite Eparts. reflexivity.
Qed.

(** C6. For every name of 1 to 4 characters of the naming alphabet and every
    index m with 1 <= m <= maxId, [variableNameToId] returns an identifier
    from which [idToVariableName] recovers the name and the index: its two
    parts are the name and m, and the string it returns is the name followed
    by m in decimal. *)
Theorem variableNameToId_roundtrip (name : string) (m : Z) :
  (1 <= String.length name <= 4)%nat ->
  forallb in_alphabet (list_ascii_of_string name) = true ->
  1 <= m <= Naming.maxId ->
  exists id,
    Naming.variableNameToId name m = Ok id /\
    Naming.idToNameAndIndex id = (name, m) /\
    Naming.idToVariableName id = (name ++ Naming.to_string m)%string.
Proof.
  intros Hlen Hval Hm. change Naming.maxId with 2325 in Hm.
  destruct name as [|c1 [|c2 [|c3 [|c4 [|c5 rest]]]]]; cbn in Hlen; try lia;
    cbn [list_ascii_of_string forallb] in Hval;
    repeat match goal with
           | H : (_ && _)%bool = true |- _ => apply andb_prop in H; destruct H
           end;
    repeat match goal with
           | H : in_alphabet ?c = true |- _ =>
               let o := fresh "o" in
               apply strchr_in_alphabet in H; destruct H as (o & ? & ? & ?)
           end;
    repeat match goal with
           | E : Naming.strchr _ ?c = Some ?o, B : (?o < 30)%nat,
             N : Naming.name_char _ = ?c |- _ =>
               pose proof (digit_chars_offset c o B N); revert E; clear N
           end; intros.
  - match goal with E1 : Naming.strchr _ c1 = Some ?o1 |- _ =>
      apply (roundtrip_of_digits _ m 0 0 0 (Z.of_nat o1 + 1)); try lia end.
    + cbn [list_ascii_of_string rev app]. encode_step_with name_part_loop_cons wrap32_small.
      cbn [Naming.name_part_loop]. f_equal. lia.
    + change (digit_chars 0) with (@nil ascii). cbn [app list_ascii_of_string]. assumption.
  - match goal with E1 : Naming.strchr _ c1 = Some ?o1, E2 : Naming.strchr _ c2 = Some ?o2 |- _ =>
      apply (roundtrip_of_digits _ m 0 0 (Z.of_nat o1 + 1) (Z.of_nat o2 + 1)); try lia end.
    + cbn [list_ascii_of_string rev app]. do 2 encode_step_with name_part_loop_cons wrap32_small.
      cbn [Naming.name_part_loop]. f_equal. lia.
    + change (digit_chars 0) with (@nil ascii). cbn [app list_ascii_of_string].
      repeat match goal with H : digit_chars _ = _ |- _ => rewrite H; clear H end.
      reflexivity.
  - match goal with E1 : Naming.strchr _ c1 = Some ?o1, E2 : Naming.strchr _ c2 = Some ?o2,
                    E3 : Naming.strchr _ c3 = Some ?o3 |- _ =>
      apply (roundtrip_of_digits _ m 0 (Z.of_nat o1 + 1) (Z.of_nat o2 + 1) (Z.of_nat o3 + 1));
        try lia end.
    + cbn [list_ascii_of_string rev app]. do 3 encode_step_with name_part_loop_cons wrap32_small.
      cbn [Naming.name_part_loop]. f_equal. lia.
    + change (digit_chars 0) with (@nil ascii). cbn [app list_ascii_of_string].
      repeat match goal with H : digit_chars _ = _ |- _ => rewrite H; clear H end.
      reflexivity.
  - match goal with E1 : Naming.strchr _ c1 = Some ?o1, E2 : Naming.strchr _ c2 = Some ?o2,
                    E3 : Naming.strchr _ c3 = Some ?o3, E4 : Naming.strchr _ c4 = Some ?o4 |- _ =>
      apply (roundtrip_of_digits _ m (Z.of_nat o1 + 1) (Z.of_nat o2 + 1) (Z.of_nat o3 + 1)
               (Z.of_nat o4 + 1)); try lia end.
    + cbn [list_ascii_of_string rev app]. do 4 encode_step_with name_part_loop_cons wrap32_small.
      cbn [Naming.name_part_loop]. f_equal. lia.
    + cbn [list_ascii_of_string].
      repeat match goal with H : digit_chars _ = _ |- _ => rewrite H; clear H end.
      reflexivity.
Qed.

(** The round trip of the name "x" with index 1. *)
Lemma variableNameToId_roundtrip_x1 :
  exists id,
    Naming.variableNameToId "x" 1 = Ok id /\
    Naming.idToNameAndIndex id = ("x"%string, 1) /\
    Naming.idToVariableName id = "x1"%string.
Proof.
  apply (variableNameToId_roundtrip "x" 1);
    [ cbn; lia | reflexivity | change Naming.maxId with 2325; lia ].
Defined.

Lemma name_part_loop_not_found (c : ascii) (l : list ascii) :
  In c l -> Naming.strchr Naming.kNameChars c = None ->
  forall multiplier name_part, Naming.name_part_loop l multiplier name_part = Undefined.
Proof.
  intros Hin Hc. induction l as [|a l IH]; intros multiplier name_part; [ contradiction | ].
  cbn [Naming.name_part_loop].
  destruct (Naming.strchr Naming.kNameChars a) as [offset|] eqn:Ea; [ | reflexivity ].
  destruct Hin as [->|Hin]; [ congruence | ]. now apply IH.
Qed.

Lemma strchr_not_found (c : ascii) :
  in_alphabet c = false -> c <> Ascii.zero -> Naming.strchr Naming.kNameChars c = None.
Proof.
  destruct c as [[] [] [] [] [] [] [] []]; vm_compute; intros Ha Hz;
    try reflexivity; try discriminate Ha; now contradiction Hz.
Qed.

(** X3. Every name with a character that is neither of the alphabet nor NUL
    takes [variableNameToId] to the subtraction from the null pointer that
    [strchr] returns, whatever the index: the loop over the characters has no
    test of the alphabet, and the range checks of the function come after it.
    What a build does from there on is not fixed by the source. *)
Theorem variableNameToId_outside_alphabet (name : string) (m : Z) (c : ascii) :
  In c (list_ascii_of_string name) -> in_alphabet c = false -> c <> Ascii.zero ->
  Naming.variableNameToId name m = Undefined.
Proof.
  intros Hin Ha Hz. unfold Naming.variableNameToId.
  rewrite (name_part_loop_not_found c); [ reflexivity | | now apply strchr_not_found ].
  apply in_rev. now rewrite rev_involutive.
Qed.

(** The name "a$b" with the index 7. *)
Lemma variableNameToId_outside_alphabet_dollar :
  Naming.variableNameToId "a$b" 7 = Undefined.
Proof.
  apply (variableNameToId_outside_alphabet "a$b" 7 "$"%char);
    [ right; left; reflexivity | reflexivity | discriminate ].
Defined.

(** C5. [variableNameToId] does not check the alphabet: on the name "$" it
    subtracts from the null pointer that [strchr] returns (undefined
    behaviour, no exception of the function's own), although
    [isValidVariableName] rejects that name; on the name made of the single
    character NUL, which [strchr] finds at the terminator of the alphabet, it
    returns the identifier 62, and [isValidVariableName] accepts the name. *)
Theorem variableNameToId_does_not_validate :
  Naming.variableNameToId "$" 1 = Undefined /\
  Naming.isValidVariableName "$" = false /\
  in_alphabet Ascii.zero = false /\
  Naming.variableNameToId nul_name 1 = Ok 62 /\
  Naming.isValidVariableName nul_name = true.
Proof. repeat split. Qed.

(** ** The de-duplication pass *)

Lemma find_index_None {A : Type} (f : A -> bool) (l : list A) :
  find_index f l = None -> forall k x, l !! k = Some x -> f x = false.
Proof.
  induction l as [|y l IH]; intros Hnone k x Hk; [ destruct k; discriminate | ].
  cbn in Hnone. destruct (f y) eqn:Ey; [ discriminate | ].
  destruct (find_index f l) eqn:El; [ discriminate | ].
  destruct k as [|k]; cbn in Hk.
  - now inversion Hk; subst.
  - now apply (IH eq_refl k).
Qed.

Lemma find_index_Some {A : Type} (f : A -> bool) (l : list A) (j : nat) :
  find_index f l = Some j -> exists x, l !! j = Some x /\ f x = true.
Proof.
  revert j. induction l as [|y l IH]; intros j Hj; [ discriminate | ].
  cbn in Hj. destruct (f y) eqn:Ey.
  - inversion Hj; subst. now exists y.
  - destruct (find_index f l) as [j'|] eqn:El; [ | discriminate ].
    inversion Hj; subst. now apply IH.
Qed.

Lemma find_index_take_lt {A : Type} (f : A -> bool) (l : list A) (n j : nat) :
  find_index f (take n l) = Some j -> (j < n)%nat /\ (j < length l)%nat.
Proof.
  intros Hj. apply find_index_Some in Hj as (x & Hx & _).
  apply lookup_lt_Some in Hx. rewrite length_take in Hx. lia.
Qed.

Lemma hasSameExponents_terms (a b a' b' : Monomial) :
  terms a = terms a' -> terms b = terms b' ->
  Monomial.hasSameExponents a b = Monomial.hasSameExponents a' b'.
Proof. intros Ha Hb. unfold Monomial.hasSameExponents. now rewrite Ha, Hb. Qed.

(** A merge keeps the terms of every monomial that stays. *)
Lemma lookup_after_merge (ms : list Monomial) (i j k : nat) (c : float) (m' : Monomial) :
  (j < i)%nat ->
  delete i (alter (add_coefficient c) j ms) !! k = Some m' ->
  exists m, ms !! (if (k <? i)%nat then k else S k) = Some m /\ terms m = terms m'.
Proof.
  intros Hji Hk.
  destruct (k <? i)%nat eqn:Eki.
  - apply Nat.ltb_lt in Eki. rewrite list_lookup_delete_lt in Hk by lia.
    destruct (decide (j = k)) as [->|Hne].
    + rewrite list_lookup_alter_eq in Hk. destruct (ms !! k) as [m|]; [ | discriminate ].
      exists m. cbn in Hk. inversion Hk; subst. now split.
    + rewrite list_lookup_alter_ne in Hk by assumption. now exists m'.
  - apply Nat.ltb_ge in Eki. rewrite list_lookup_delete_ge in Hk by lia.
    rewrite list_lookup_alter_ne in Hk by lia. now exists m'.
Qed.

Lemma makeMonomialsUnique_loop_separated (n : nat) :
  forall ms uni unique_var,
    (n <= length ms)%nat -> separated_from n ms ->
    separated_from 0 (fst (Polynomial.makeMonomialsUnique_loop n ms uni unique_var)).
Proof.
  induction n as [|i IH]; intros ms uni unique_var Hlen Hsep; [ exact Hsep | ].
  cbn [Polynomial.makeMonomialsUnique_loop].
  destruct (ms !! i) as [mi|] eqn:Hi; [ | apply lookup_ge_None in Hi; lia ].
  destruct (Polynomial.update_univariate mi uni unique_var) as [uni' unique_var'].
  destruct (find_index (Monomial.hasSameExponents mi) (take (i - 1) ms)) as [j|] eqn:Hfind.
  - apply find_index_take_lt in Hfind as [Hj _].
    apply IH.
    + rewrite length_delete, length_alter; [ lia | ].
      apply lookup_lt_is_Some. rewrite length_alter. lia.
    + intros a b ma mb Ha Hb Hib Hab.
      apply lookup_after_merge in Ha as (ma0 & Ha0 & Hta); [ | lia ].
      apply lookup_after_merge in Hb as (mb0 & Hb0 & Htb); [ | lia ].
      replace (b <? i)%nat with false in Hb0 by (symmetry; apply Nat.ltb_ge; lia).
      rewrite <- (hasSameExponents_terms mb0 ma0 mb ma Htb Hta).
      destruct (a <? i)%nat; eapply Hsep; eauto; lia.
  - apply IH; [ lia | ].
    intros a b ma mb Ha Hb Hib Hab.
    destruct (decide (b = i)) as [->|Hne].
    + rewrite Hi in Hb. inversion Hb; subst mb.
      apply (find_index_None _ _ Hfind a). rewrite lookup_take_lt by lia. exact Ha.
    + eapply Hsep; eauto; lia.
Qed.

Lemma makeMonomialsUnique_separated (p : Polynomial) :
  separated_from 0 (monomials (Polynomial.makeMonomialsUnique p)).
Proof.
  unfold Polynomial.makeMonomialsUnique.
  pose proof (makeMonomialsUnique_loop_separated (length (monomials p)) (monomials p)
                (is_univariate p) 0) as H.
  destruct (Polynomial.makeMonomialsUnique_loop _ _ _ _) as [ms uni]. cbn in *.
  apply H; [ lia | ].
  intros a b ma mb _ Hb Hge _. apply lookup_lt_Some in Hb. lia.
Qed.

Lemma makeMonomialsUnique_loop_length (n : nat) :
  forall ms uni unique_var,
    (length (fst (Polynomial.makeMonomialsUnique_loop n ms uni unique_var)) <= length ms)%nat.
Proof.
  induction n as [|i IH]; intros ms uni unique_var; [ cbn; lia | ].
  cbn [Polynomial.makeMonomialsUnique_loop].
  destruct (ms !! i) as [mi|] eqn:Hi; [ | cbn; lia ].
  destruct (Polynomial.update_univariate mi uni unique_var) as [uni' unique_var'].
  destruct (find_index (Monomial.hasSameExponents mi) (take (i - 1) ms)) as [j|] eqn:Hfind.
  - etransitivity; [ apply IH | ].
    rewrite length_delete, length_alter; [ lia | ].
    apply lookup_lt_is_Some. rewrite length_alter. now apply lookup_lt_Some in Hi.
  - apply IH.
Qed.

Lemma makeMonomialsUnique_length (p : Polynomial) :
  (length (monomials (Polynomial.makeMonomialsUnique p)) <= length (monomials p))%nat.
Proof.
  unfold Polynomial.makeMonomialsUnique.
  pose proof (makeMonomialsUnique_loop_length (length (monomials p)) (monomials p)
                (is_univariate p) 0) as H.
  destruct (Polynomial.makeMonomialsUnique_loop _ _ _ _) as [ms uni]. exact H.
Qed.

(** X1. What the pass does guarantee, for the four operations that end with it:
    no monomial of the result has the exponent vector of a monomial two or
    more places before it, and the pass adds no monomial. *)
Theorem mutating_operations_separate_equal_exponents (p other : Polynomial)
    (range : list Monomial) :
  separated_from 0 (monomials (Polynomial.add_assign p other)) /\
  separated_from 0 (monomials (Polynomial.sub_assign p other)) /\
  separated_from 0 (monomials (Polynomial.mul_assign p other)) /\
  separated_from 0 (monomials (Polynomial.of_range range)) /\
  (length (monomials (Polynomial.add_assign p other)) <=
     length (monomials p) + length (monomials other))%nat /\
  (length (monomials (Polynomial.of_range range)) <= length range)%nat.
Proof.
  repeat split; try apply makeMonomialsUnique_separated.
  - etransitivity; [ apply makeMonomialsUnique_length | ].
    cbn [monomials]. now rewrite length_app.
  - apply (makeMonomialsUnique_length (mkPolynomial range true)).
Qed.

(** C1. Each of the four operations leaves two monomials with the exponent
    vector of x next to each other: [x += x] holds x twice, [x -= x] holds x
    and -x, [(x - 1) *= (x - 1)] holds -x twice and the range constructor keeps
    the two monomials of the range [x, x].  The inner loop of
    [makeMonomialsUnique] stops at [j < i - 1] and never compares a monomial
    with the one just before it. *)
Theorem mutating_operations_keep_equal_neighbours :
  monomials (Polynomial.add_assign poly_x poly_x) =
    [mkMonomial 1%float [mkTerm x_id 1]; mkMonomial 1%float [mkTerm x_id 1]] /\
  monomials (Polynomial.sub_assign poly_x poly_x) =
    [mkMonomial 1%float [mkTerm x_id 1]; mkMonomial (-1)%float [mkTerm x_id 1]] /\
  monomials (Polynomial.mul_assign x_minus_1 x_minus_1) =
    [mkMonomial 1%float [mkTerm x_id 2]; mkMonomial (-1)%float [mkTerm x_id 1];
     mkMonomial (-1)%float [mkTerm x_id 1]; mkMonomial 1%float []] /\
  monomials (Polynomial.of_range (monomials poly_x ++ monomials poly_x)) =
    [mkMonomial 1%float [mkTerm x_id 1]; mkMonomial 1%float [mkTerm x_id 1]] /\
  unique_exponents (monomials (Polynomial.add_assign poly_x poly_x)) = false /\
  unique_exponents (monomials (Polynomial.sub_assign poly_x poly_x)) = false /\
  unique_exponents (monomials (Polynomial.mul_assign x_minus_1 x_minus_1)) = false /\
  unique_exponents (monomials (Polynomial.of_range (monomials poly_x ++ monomials poly_x))) =
    false.
Proof. repeat split. Qed.

(** C2. For [Polynomial x("x"); Polynomial poly = (x-1)*(x-1);] the product
    holds the monomials x^2, -x, -x, 1 and [poly.getCoefficients()] returns
    [1, -1, 1]: the second -x overwrites the first in the dense vector, where
    the claim has -2. *)
Theorem getCoefficients_of_x_minus_1_squared :
  Polynomial.of_name "x" 1 = Ok poly_x /\
  x_minus_1 = mkPolynomial [mkMonomial 1%float [mkTerm x_id 1]; mkMonomial (-1)%float []] true /\
  Polynomial.sub poly_x (Polynomial.of_scalar 1%float) = x_minus_1 /\
  Polynomial.getCoefficients (Polynomial.mul x_minus_1 x_minus_1) =
    Ok [1%float; (-1)%float; 1%float].
Proof. repeat split. Qed.

(** ** Partial evaluation *)

Section EvaluatePartialProperties.

Variable std_pow : float -> PowerType -> float.

Lemma evaluate_terms_fold (var_values : gmap Z float) (ts : list Term) :
  forall c acc,
    fold_left (fun '(new_coefficient, new_terms) t =>
                 match var_values !! var t with
                 | Some value => ((new_coefficient * std_pow value (power t))%float, new_terms)
                 | None => (new_coefficient, new_terms ++ [t])
                 end) ts (c, acc) =
    (fold_left (fold_value std_pow var_values) ts c,
     acc ++ List.filter (fun t => negb (assigned var_values t)) ts).
Proof.
  unfold fold_value, assigned.
  induction ts as [|t ts IH]; intros c acc; cbn [fold_left List.filter].
  - now rewrite app_nil_r.
  - destruct (var_values !! var t) as [value|]; cbn [negb]; rewrite IH.
    + reflexivity.
    + now rewrite <- app_assoc.
Qed.

Lemma evaluate_terms_substituted (var_values : gmap Z float) (m : Monomial) :
  Polynomial.evaluate_terms std_pow var_values m = substituted std_pow var_values m.
Proof.
  unfold Polynomial.evaluate_terms, substituted. now rewrite evaluate_terms_fold.
Qed.

(** C3, as amended. [evaluatePartial] returns the polynomial that the
    monomial-range constructor builds from the input monomials with the
    assigned terms removed and value^power folded into each coefficient: the
    de-duplication pass is run on them, so the result has no more monomials
    than the input, and none of them has the exponent vector of a monomial two
    or more places before it. *)
Theorem evaluatePartial_deduplicates (var_values : gmap Z float) (p : Polynomial) :
  Polynomial.evaluatePartial std_pow var_values p =
    Polynomial.makeMonomialsUnique
      (mkPolynomial (map (substituted std_pow var_values) (monomials p)) true) /\
  (length (monomials (Polynomial.evaluatePartial std_pow var_values p)) <=
     length (monomials p))%nat /\
  separated_from 0 (monomials (Polynomial.evaluatePartial std_pow var_values p)).
Proof.
  unfold Polynomial.evaluatePartial, Polynomial.of_range.
  rewrite (map_ext _ _ (evaluate_terms_substituted var_values)).
  split; [ reflexivity | split ].
  - etransitivity; [ apply makeMonomialsUnique_length | ].
    cbn [monomials]. now rewrite length_map.
  - apply makeMonomialsUnique_separated.
Qed.

End EvaluatePartialProperties.

(** C3, the claim as stated fails: for x*y + z + x and the assignment y := 1
    the substituted monomials are x, z, x, and [evaluatePartial] returns 2x
    and z: the third monomial is merged into the first. *)
Lemma evaluatePartial_merges_duplicates :
  monomials xy_plus_z_plus_x =
    [mkMonomial 1%float [mkTerm x_id 1; mkTerm y_id 1]; mkMonomial 1%float [mkTerm z_id 1];
     mkMonomial 1%float [mkTerm x_id 1]] /\
  map (substituted pow_by_multiplication {[ y_id := 1%float ]}) (monomials xy_plus_z_plus_x) =
    [mkMonomial 1%float [mkTerm x_id 1]; mkMonomial 1%float [mkTerm z_id 1];
     mkMonomial 1%float [mkTerm x_id 1]] /\
  monomials (Polynomial.evaluatePartial pow_by_multiplication {[ y_id := 1%float ]}
               xy_plus_z_plus_x) =
    [mkMonomial 2%float [mkTerm x_id 1]; mkMonomial 1%float [mkTerm z_id 1]] /\
  monomials (Polynomial.evaluatePartial pow_by_multiplication {[ y_id := 1%float ]}
               xy_plus_z_plus_x) <>
    map (substituted pow_by_multiplication {[ y_id := 1%float ]}) (monomials xy_plus_z_plus_x).
Proof. repeat split. vm_compute. discriminate. Qed.

(** ** The sin/cos maps of binary operations *)

Lemma insert_range_union (m other : SinCosMap) :
  TrigPoly.insert_range m other = m ∪ other.
Proof.
  unfold TrigPoly.insert_range.
  apply (map_fold_weak_ind (fun r o => r = m ∪ o)).
  - now rewrite (right_id_L ∅ (∪)).
  - intros i x o r Hoi ->.
    rewrite lookup_union_l by exact Hoi.
    destruct (m !! i) as [y|] eqn:Hmi.
    + apply map_eq. intros k. destruct (decide (k = i)) as [->|Hne].
      * rewrite !lookup_union_l' by (rewrite Hmi; eauto). reflexivity.
      * rewrite !lookup_union, lookup_insert_ne by congruence. reflexivity.
    + now apply insert_union_r.
Qed.

(** C4, as amended. After every binary TrigPoly operation ([+=], [-=], [*=]
    and the value-returning forms) the sin/cos map is the union of the two
    operands' maps in which, for a key that both maps hold, the entry is the
    one of the left-hand operand: [std::map::insert] keeps the element that
    is already there. *)
Theorem binary_operation_keeps_left_entry :
  Forall (fun op : TrigPoly -> TrigPoly -> TrigPoly =>
            forall (a b : TrigPoly) (k : VarType),
              sin_cos_map (op a b) = sin_cos_map a ∪ sin_cos_map b /\
              sin_cos_map (op a b) !! k =
                match sin_cos_map a !! k with
                | Some entry => Some entry
                | None => sin_cos_map b !! k
                end)
    binary_operations.
Proof.
  assert (H : forall a b k,
             (sin_cos_map a ∪ sin_cos_map b) !! k =
               match sin_cos_map a !! k with
               | Some entry => Some entry
               | None => sin_cos_map b !! k
               end).
  { intros a b k. rewrite lookup_union.
    destruct (sin_cos_map a !! k), (sin_cos_map b !! k); reflexivity. }
  unfold binary_operations.
  repeat (constructor;
          [ intros a b k; split;
            [ apply insert_range_union
            | etransitivity; [ | apply H ]; f_equal; apply insert_range_union ]
          | ]).
  constructor.
Qed.

(** C4, the claim as stated fails: when both operands map the angle variable
    x, [a += b] keeps the entry of a, not the one of b. *)
Lemma add_assign_keeps_left_entry :
  let a := mkTrigPoly poly_x {[ x_id := SinCosVars.mk s_id c_id ]} in
  let b := mkTrigPoly poly_x {[ x_id := SinCosVars.mk 2 4 ]} in
  sin_cos_map b !! x_id = Some (SinCosVars.mk 2 4) /\
  sin_cos_map (TrigPoly.add_assign a b) !! x_id = Some (SinCosVars.mk s_id c_id) /\
  sin_cos_map (TrigPoly.add_assign a b) !! x_id <> sin_cos_map b !! x_id.
Proof. repeat split. vm_compute. discriminate. Qed.

(** ** Integral and derivative *)

Lemma monomial_in_leads_with (x : VarType) (m : Monomial) :
  monomial_in x m = true -> leads_with x m = true.
Proof.
  unfold monomial_in, leads_with. destruct (terms m) as [|t [|t' ts]]; try easy.
  intros H. apply andb_prop in H as [H _]. now apply andb_prop in H as [H _].
Qed.

Lemma first_variable_in (x : VarType) (ms : list Monomial) :
  forallb (leads_with x) ms = true ->
  existsb (fun m => negb (is_constant m)) ms = true ->
  Polynomial.first_variable ms = x.
Proof.
  unfold Polynomial.first_variable.
  induction ms as [|m ms IH]; cbn [forallb existsb find]; intros Hall Hex; [ discriminate | ].
  apply andb_prop in Hall as [Hm Hall].
  unfold leads_with in Hm. unfold is_constant in Hex.
  destruct (terms m) as [|t ts] eqn:Et; cbn in Hex; cbn iota.
  - now apply IH.
  - rewrite Et. now apply Z.eqb_eq in Hm.
Qed.

Lemma integrate_monomial_leads_with (x : VarType) (m : Monomial) :
  leads_with x m = true ->
  leads_with x (integrate_monomial x m) = true /\ is_constant (integrate_monomial x m) = false.
Proof.
  unfold leads_with, integrate_monomial, is_constant.
  destruct (terms m) as [|t ts]; cbn; intros H; split; try reflexivity; try assumption.
  apply Z.eqb_refl.
Qed.

Lemma integral_loop_in (x : VarType) (todo : list Monomial) :
  1 <= x ->
  forall done,
    forallb (leads_with x) (done ++ todo) = true ->
    existsb (fun m => negb (is_constant m)) (done ++ todo) = true ->
    Polynomial.integral_loop done todo = Ok (done ++ map (integrate_monomial x) todo).
Proof.
  intros Hx. induction todo as [|m rest IH]; intros done Hall Hex.
  - cbn. now rewrite app_nil_r.
  - assert (Hm : leads_with x m = true).
    { rewrite forallb_app in Hall. apply andb_prop in Hall as [_ Hall].
      cbn in Hall. now apply andb_prop in Hall as [Hm _]. }
    destruct (integrate_monomial_leads_with x m Hm) as [Hlead Hnc].
    assert (Hstep : Polynomial.integral_loop (done ++ [integrate_monomial x m]) rest =
                      Ok (done ++ map (integrate_monomial x) (m :: rest))).
    { rewrite IH; [ now rewrite <- app_assoc | | ].
      - rewrite <- app_assoc. cbn [app]. rewrite forallb_app in Hall |- *.
        apply andb_prop in Hall as [Hd Hr]. cbn in Hr |- *.
        apply andb_prop in Hr as [_ Hr]. now rewrite Hd, Hlead, Hr.
      - rewrite <- app_assoc. cbn [app]. rewrite existsb_app. cbn.
        rewrite Hnc. cbn. now rewrite orb_true_r. }
    rewrite <- Hstep. cbn [Polynomial.integral_loop]. unfold integrate_monomial.
    destruct (terms m) as [|t0 ts] eqn:Et; [ | reflexivity ].
    rewrite (first_variable_in x) by assumption.
    destruct (x <? 1) eqn:Ex; [ apply Z.ltb_lt in Ex; lia | reflexivity ].
Qed.









Lemma getDegree_loop_ge (ms : list Monomial) :
  forall d,
    d <= fold_left Polynomial.max_degree_step ms d /\
    Forall (fun m => Monomial.getDegree m <= fold_left Polynomial.max_degree_step ms d) ms.
Proof.
  induction ms as [|m ms IH]; intros d; cbn [fold_left]; [ split; [ lia | constructor ] | ].
  destruct (IH (Polynomial.max_degree_step d m)) as [Hd Hall].
  assert (Hstep : d <= Polynomial.max_degree_step d m /\
                  Monomial.getDegree m <= Polynomial.max_degree_step d m).
  { unfold Polynomial.max_degree_step. cbv zeta.
    destruct (d <? Monomial.getDegree m) eqn:E;
      [ apply Z.ltb_lt in E | apply Z.ltb_ge in E ]; lia. }
  split; [ lia | constructor; [ lia | exact Hall ] ].
Qed.


Lemma getCoefficients_loop_ok (ms : list Monomial) :
  forall v,
    Forall (fun m => 0 <= Polynomial.coefficient_index m < Z.of_nat (length v)) ms ->
    exists v',
      fold_left (fun acc m => let* coefficients := acc in
                   Polynomial.store coefficients (Polynomial.coefficient_index m) (coefficient m))
        ms (Ok v) = Ok v'.
Proof.
  induction ms as [|m ms IH]; intros v Hall; cbn [fold_left]; [ now exists v | ].
  inversion Hall as [|? ? Hm Hrest]; subst. cbn [bind]. unfold Polynomial.store.
  destruct (0 <=? Polynomial.coefficient_index m) eqn:E1; [ | apply Z.leb_gt in E1; lia ].
  destruct (Polynomial.coefficient_index m <? Z.of_nat (length v)) eqn:E2;
    [ | apply Z.ltb_ge in E2; lia ].
  cbn [andb]. apply IH. now rewrite length_insert.
Qed.







(** The division and the multiplication do not always give the coefficient
    back: the round trip of x^48 has the coefficient (1/49)*49, which is not 1
    in binary64 arithmetic. *)
Example round_trip_is_not_exact :
  coefficient (round_trip (mkMonomial 1%float [mkTerm x_id 48])) <> 1%float.
Proof. vm_compute. discriminate. Qed.

(** Nor do they keep it within a relative tolerance: the smallest positive
    binary64 number divided by 3 is rounded to 0, and the polynomial
    2^-1074 * x^2 comes back as 0 * x^2. *)
Example round_trip_loses_a_small_coefficient :
  let p := mkPolynomial [mkMonomial 0x1p-1074%float [mkTerm x_id 2]] true in
  (0 <? 0x1p-1074)%float = true /\
  (let* q := Polynomial.integral 0%float p in Polynomial.derivative 1 q) =
    Ok (mkPolynomial [mkMonomial 0%float [mkTerm x_id 2]] true) /\
  Polynomial.getCoefficients p = Ok [0%float; 0%float; 0x1p-1074%float] /\
  Polynomial.getCoefficients (mkPolynomial [mkMonomial 0%float [mkTerm x_id 2]] true) =
    Ok [0%float; 0%float; 0%float].
Proof. repeat split. Qed.

(** ** sin and cos of a TrigPoly *)

Section TrigProperties.

Variables std_sin std_cos : float -> float.







(** C8. For the TrigPoly x built from q = x, s = s1, c = c1, [sin(x)] is s1
    and [cos(x + x)] is the polynomial c1^2 + -1*s1^2: the monomial c^2 with
    coefficient 1, then the monomial s^2 with coefficient -1, where the
    identifiers of c and s print as "c1" and "s1". *)
Theorem cos_of_x_plus_x :
  (let* q := Polynomial.of_name "x" 1 in
   let* s := Polynomial.of_name "s" 1 in
   let* c := Polynomial.of_name "c" 1 in
   TrigPoly.of_sin_cos q s c) = Ok trig_x /\
  TrigPoly.sin std_sin std_cos trig_x =
    Some (Ok (mkTrigPoly (mkPolynomial [mkMonomial 1%float [mkTerm s_id 1]] true)
                (sin_cos_map trig_x))) /\
  TrigPoly.cos std_sin std_cos (TrigPoly.add trig_x trig_x) =
    Some (Ok (mkTrigPoly
                (mkPolynomial [mkMonomial 1%float [mkTerm c_id 2];
                               mkMonomial (-1)%float [mkTerm s_id 2]] false)
                (sin_cos_map trig_x))) /\
  Naming.idToVariableName c_id = "c1"%string /\
  Naming.idToVariableName s_id = "s1"%string.
Proof. repeat split; vm_compute; reflexivity. Qed.

(** C9. For every TrigPoly whose polynomial is the single monomial -1*v, v
    being mapped to (s, c), [cos] returns the polynomial in which v is
    replaced by c and every coefficient is then multiplied by -1: the single
    monomial +1*c. *)
Theorem cos_of_negated_variable (v : VarType) (entry : SinCosVars.t) (m : SinCosMap)
    (flag : bool) :
  m !! v = Some entry ->
  let p := mkPolynomial [mkMonomial (-1)%float [mkTerm v 1]] flag in
  TrigPoly.cos std_sin std_cos (mkTrigPoly p m) =
    Some (Ok (mkTrigPoly
                (Polynomial.mul_assign_scalar (Polynomial.subs v (SinCosVars.c entry) p)
                   (-1)%float)
                m)) /\
  Polynomial.mul_assign_scalar (Polynomial.subs v (SinCosVars.c entry) p) (-1)%float =
    mkPolynomial [mkMonomial 1%float [mkTerm (SinCosVars.c entry) 1]] flag.
Proof.
  intros Hv p. split.
  - unfold TrigPoly.cos. cbn [poly monomials p length TrigPoly.cos_fuel].
    change (1 <? Polynomial.getDegree _) with false. cbn iota.
    unfold TrigPoly.cos_monomial. cbn [terms var sin_cos_map coefficient poly].
    rewrite Hv. reflexivity.
  - unfold Polynomial.mul_assign_scalar, Polynomial.subs, p.
    cbn [monomials map terms var power coefficient is_univariate scale].
    rewrite Z.eqb_refl. reflexivity.
Qed.

(** C10. For every TrigPoly whose polynomial is the single monomial x*y of
    two distinct variables of power 1, x being mapped to (s, c), the degree is
    1*1 = 1, [sin] does not throw and returns the monomial in which the term
    of x is replaced by s and the term of y is left in place. *)
Theorem sin_of_product_of_two_variables (x y : VarType) (entry : SinCosVars.t)
    (m : SinCosMap) (flag : bool) :
  x <> y -> m !! x = Some entry ->
  let p := mkPolynomial [mkMonomial 1%float [mkTerm x 1; mkTerm y 1]] flag in
  Polynomial.getDegree p = 1 /\
  TrigPoly.sin std_sin std_cos (mkTrigPoly p m) =
    Some (Ok (mkTrigPoly
                (mkPolynomial
                   [mkMonomial 1%float [mkTerm (SinCosVars.s entry) 1; mkTerm y 1]] flag)
                m)).
Proof.
  intros Hxy Hx p. split; [ reflexivity | ].
  unfold TrigPoly.sin. cbn [poly monomials p length TrigPoly.sin_fuel].
  change (1 <? Polynomial.getDegree _) with false. cbn iota.
  unfold TrigPoly.sin_monomial. cbn [terms var sin_cos_map coefficient poly].
  rewrite Hx. change (negb (PrimFloat.abs 1 =? 1)%float) with false. cbn iota.
  unfold Polynomial.subs, p. cbn [monomials map terms var power coefficient is_univariate].
  rewrite Z.eqb_refl. destruct (y =? x) eqn:E; [ apply Z.eqb_eq in E; congruence | ].
  reflexivity.
Qed.

End TrigProperties.


(** cos(-x) for the TrigPoly of the examples. *)
Lemma cos_of_negated_variable_x :
  let p := mkPolynomial [mkMonomial (-1)%float [mkTerm x_id 1]] true in
  TrigPoly.cos not_called not_called (mkTrigPoly p (sin_cos_map trig_x)) =
    Some (Ok (mkTrigPoly
                (Polynomial.mul_assign_scalar (Polynomial.subs x_id c_id p) (-1)%float)
                (sin_cos_map trig_x))) /\
  Polynomial.mul_assign_scalar (Polynomial.subs x_id c_id p) (-1)%float =
    mkPolynomial [mkMonomial 1%float [mkTerm c_id 1]] true.
Proof.
  apply (cos_of_negated_variable not_called not_called x_id (SinCosVars.mk s_id c_id)
           (sin_cos_map trig_x) true).
  reflexivity.
Defined.

(** sin(x*y) when both x and y have their sine and cosine registered. *)
Lemma sin_of_product_of_x_and_y :
  let m : SinCosMap :=
    <[ y_id := SinCosVars.mk 2 4 ]> {[ x_id := SinCosVars.mk s_id c_id ]} in
  let p := mkPolynomial [mkMonomial 1%float [mkTerm x_id 1; mkTerm y_id 1]] false in
  Polynomial.getDegree p = 1 /\
  TrigPoly.sin not_called not_called (mkTrigPoly p m) =
    Some (Ok (mkTrigPoly
                (mkPolynomial [mkMonomial 1%float [mkTerm s_id 1; mkTerm y_id 1]] false)
                m)).
Proof.
  apply (sin_of_product_of_two_variables not_called not_called x_id y_id
           (SinCosVars.mk s_id c_id)
           (<[ y_id := SinCosVars.mk 2 4 ]> {[ x_id := SinCosVars.mk s_id c_id ]}) false).
  - discriminate.
  - reflexivity.
Defined.

(** ** The naming scheme, beyond the round trip *)



Lemma valid_name_digits (name : string) :
  valid_name name ->
  exists d1 d2 d3 d4,
    0 <= d1 <= 30 /\ 0 <= d2 <= 30 /\ 0 <= d3 <= 30 /\ 1 <= d4 <= 30 /\
    Naming.name_part_loop (rev (list_ascii_of_string name)) 1 0 =
      Ok (digits_value d1 d2 d3 d4) /\
    digit_chars d1 ++ digit_chars d2 ++ digit_chars d3 ++ digit_chars d4 =
      list_ascii_of_string name.
Proof.
  intros [Hlen Hval]. unfold digits_value.
  destruct name as [|c1 [|c2 [|c3 [|c4 [|c5 rest]]]]]; cbn in Hlen; try lia;
    cbn [list_ascii_of_string forallb] in Hval;
    repeat match goal with
           | H : (_ && _)%bool = true |- _ => apply andb_prop in H; destruct H
           end;
    repeat match goal with
           | H : in_alphabet ?c = true |- _ =>
               let o := fresh "o" in
               apply strchr_in_alphabet in H; destruct H as (o & ? & ? & ?)
           end;
    repeat match goal with
           | E : Naming.strchr _ ?c = Some ?o, B : (?o < 30)%nat,
             N : Naming.name_char _ = ?c |- _ =>
               pose proof (digit_chars_offset c o B N); revert E; clear N
           end; intros.
  - match goal with E1 : Naming.strchr _ c1 = Some ?o1 |- _ =>
      exists 0, 0, 0, (Z.of_nat o1 + 1) end.
    repeat (split; [ lia | ]). split.
    + cbn [list_ascii_of_string rev app]. encode_step_with name_part_loop_cons wrap32_small.
      cbn [Naming.name_part_loop]. f_equal. lia.
    + change (digit_chars 0) with (@nil ascii). cbn [app list_ascii_of_string]. assumption.
  - match goal with E1 : Naming.strchr _ c1 = Some ?o1, E2 : Naming.strchr _ c2 = Some ?o2 |- _ =>
      exists 0, 0, (Z.of_nat o1 + 1), (Z.of_nat o2 + 1) end.
    repeat (split; [ lia | ]). split.
    + cbn [list_ascii_of_string rev app].
      do 2 encode_step_with name_part_loop_cons wrap32_small.
      cbn [Naming.name_part_loop]. f_equal. lia.
    + change (digit_chars 0) with (@nil ascii). cbn [app list_ascii_of_string].
      repeat match goal with H : digit_chars _ = _ |- _ => rewrite H; clear H end.
      reflexivity.
  - match goal with E1 : Naming.strchr _ c1 = Some ?o1, E2 : Naming.strchr _ c2 = Some ?o2,
                    E3 : Naming.strchr _ c3 = Some ?o3 |- _ =>
      exists 0, (Z.of_nat o1 + 1), (Z.of_nat o2 + 1), (Z.of_nat o3 + 1) end.
    repeat (split; [ lia | ]). split.
    + cbn [list_ascii_of_string rev app].
      do 3 encode_step_with name_part_loop_cons wrap32_small.
      cbn [Naming.name_part_loop]. f_equal. lia.
    + change (digit_chars 0) with (@nil ascii). cbn [app list_ascii_of_string].
      repeat match goal with H : digit_chars _ = _ |- _ => rewrite H; clear H end.
      reflexivity.
  - match goal with E1 : Naming.strchr _ c1 = Some ?o1, E2 : Naming.strchr _ c2 = Some ?o2,
                    E3 : Naming.strchr _ c3 = Some ?o3, E4 : Naming.strchr _ c4 = Some ?o4 |- _ =>
      exists (Z.of_nat o1 + 1), (Z.of_nat o2 + 1), (Z.of_nat o3 + 1), (Z.of_nat o4 + 1) end.
    repeat (split; [ lia | ]). split.
    + cbn [list_ascii_of_string rev app].
      do 4 encode_step_with name_part_loop_cons wrap32_small.
      cbn [Naming.name_part_loop]. f_equal. lia.
    + cbn [list_ascii_of_string].
      repeat match goal with H : digit_chars _ = _ |- _ => rewrite H; clear H end.
      reflexivity.
Qed.

Lemma valid_name_roundtrip (name : string) (m : Z) :
  valid_name name -> 1 <= m <= Naming.maxId ->
  exists id,
    Naming.variableNameToId name m = Ok id /\
    Naming.idToNameAndIndex id = (name, m) /\
    Naming.idToVariableName id = (name ++ Naming.to_string m)%string.
Proof.
  intros Hname Hm. change Naming.maxId with 2325 in Hm.
  destruct (valid_name_digits name Hname) as (d1 & d2 & d3 & d4 & H1 & H2 & H3 & H4 & He & Hd).
  now apply (roundtrip_of_digits name m d1 d2 d3 d4).
Qed.

(** X4. On the names of 1 to 4 characters of the alphabet and the indices from
    1 to maxId, [variableNameToId] is injective: two pairs of a name and an
    index that get the same identifier are the same pair. *)
Theorem variableNameToId_injective (name1 name2 : string) (m1 m2 id : Z) :
  valid_name name1 -> valid_name name2 ->
  1 <= m1 <= Naming.maxId -> 1 <= m2 <= Naming.maxId ->
  Naming.variableNameToId name1 m1 = Ok id ->
  Naming.variableNameToId name2 m2 = Ok id ->
  name1 = name2 /\ m1 = m2.
Proof.
  intros Hn1 Hn2 Hm1 Hm2 E1 E2.
  destruct (valid_name_roundtrip name1 m1 Hn1 Hm1) as (id1 & Ei1 & Ep1 & _).
  destruct (valid_name_roundtrip name2 m2 Hn2 Hm2) as (id2 & Ei2 & Ep2 & _).
  rewrite E1 in Ei1. rewrite E2 in Ei2. inversion Ei1; inversion Ei2; subst id1 id2.
  rewrite Ep1 in Ep2. now inversion Ep2.
Qed.

(** X5. For a name of 1 to 4 characters of the alphabet an index below 1 is
    refused with [m must be >0] and an index above maxId with
    [name exceeds max ID]. *)
Theorem variableNameToId_index_out_of_range (name : string) (m : Z) :
  valid_name name ->
  (m < 1 -> Naming.variableNameToId name m = Throw "m must be >0") /\
  (Naming.maxId < m -> Naming.variableNameToId name m = Throw "name exceeds max ID").
Proof.
  intros Hname.
  destruct (valid_name_digits name Hname) as (d1 & d2 & d3 & d4 & H1 & H2 & H3 & H4 & He & _).
  unfold Naming.variableNameToId. rewrite He. cbn [bind].
  change Naming.kMaxNamePart with 923521. change Naming.maxId with 2325.
  destruct (923521 <? digits_value d1 d2 d3 d4) eqn:E1;
    [ apply Z.ltb_lt in E1; unfold digits_value in E1; lia | ].
  split; intros Hm.
  - destruct (2325 <? m) eqn:E2; [ apply Z.ltb_lt in E2; lia | ].
    destruct (m <? 1) eqn:E3; [ reflexivity | apply Z.ltb_ge in E3; lia ].
  - destruct (2325 <? m) eqn:E2; [ reflexivity | apply Z.ltb_ge in E2; lia ].
Qed.

(** X6. The identifier of a name of 1 to 4 characters of the alphabet with an
    index from 1 to maxId is even, not 0 (the value that stands for no
    variable) and below 2^32 - 1, so the 32-bit arithmetic does not wrap; the
    odd identifier next to it decodes to the same string, because
    [idToVariableName] halves the identifier first. *)
Theorem variableNameToId_even_nonzero (name : string) (m : Z) :
  valid_name name -> 1 <= m <= Naming.maxId ->
  exists k,
    Naming.variableNameToId name m = Ok (2 * k) /\ 1 <= k /\ 2 * k < UINT_MAX /\
    Naming.idToVariableName (2 * k + 1) = Naming.idToVariableName (2 * k).
Proof.
  intros Hname Hm. change Naming.maxId with 2325 in Hm.
  destruct (valid_name_digits name Hname) as (d1 & d2 & d3 & d4 & H1 & H2 & H3 & H4 & He & _).
  exists (digits_value d1 d2 d3 d4 + 923521 * (m - 1)).
  assert (Hnp : 1 <= digits_value d1 d2 d3 d4 < 923521) by (unfold digits_value; lia).
  split; [ | split; [ lia | split; [ unfold UINT_MAX; lia | ] ] ].
  - unfold Naming.variableNameToId. rewrite He. cbn [bind].
    change Naming.kMaxNamePart with 923521. change Naming.maxId with 2325.
    destruct (923521 <? _) eqn:E1; [ apply Z.ltb_lt in E1; lia | ].
    destruct (2325 <? m) eqn:E2; [ apply Z.ltb_lt in E2; lia | ].
    destruct (m <? 1) eqn:E3; [ apply Z.ltb_lt in E3; lia | ].
    now rewrite wrap32_small by lia.
  - unfold Naming.idToVariableName, Naming.idToNameAndIndex.
    replace ((2 * (digits_value d1 d2 d3 d4 + 923521 * (m - 1)) + 1) / 2)
      with (2 * (digits_value d1 d2 d3 d4 + 923521 * (m - 1)) / 2)
      by (Z.div_mod_to_equations; lia).
    reflexivity.
Qed.

(** X7. A name of 5 or 6 characters of the alphabet is refused with
    [name exceeds max allowed], whatever the index. *)
Theorem variableNameToId_five_or_six_characters (name : string) (m : Z) :
  (5 <= String.length name <= 6)%nat ->
  forallb in_alphabet (list_ascii_of_string name) = true ->
  Naming.variableNameToId name m = Throw "name exceeds max allowed".
Proof.
  intros Hlen Hval.
  destruct name as [|c1 [|c2 [|c3 [|c4 [|c5 [|c6 [|c7 rest]]]]]]]; cbn in Hlen; try lia;
    cbn [list_ascii_of_string forallb] in Hval;
    repeat match goal with
           | H : (_ && _)%bool = true |- _ => apply andb_prop in H; destruct H
           end;
    repeat match goal with
           | H : in_alphabet ?c = true |- _ =>
               let o := fresh "o" in
               apply strchr_in_alphabet in H; destruct H as (o & ? & ? & _)
           end;
    unfold Naming.variableNameToId; cbn [list_ascii_of_string rev app].
  - do 5 encode_step_with name_part_loop_cons wrap32_small.
    cbn [Naming.name_part_loop bind]. change Naming.kMaxNamePart with 923521.
    match goal with |- context [923521 <? ?v] => destruct (923521 <? v) eqn:E end;
      [ reflexivity | apply Z.ltb_ge in E; lia ].
  - do 6 encode_step_with name_part_loop_cons wrap32_small.
    cbn [Naming.name_part_loop bind]. change Naming.kMaxNamePart with 923521.
    match goal with |- context [923521 <? ?v] => destruct (923521 <? v) eqn:E end;
      [ reflexivity | apply Z.ltb_ge in E; lia ].
Qed.

(** The name hello. *)
Lemma variableNameToId_five_or_six_characters_hello :
  Naming.variableNameToId "hello" 1 = Throw "name exceeds max allowed".
Proof.
  apply (variableNameToId_five_or_six_characters "hello" 1); [ cbn; lia | reflexivity ].
Defined.

(** X8. From 7 characters on the 32-bit accumulator can wrap around: the name
    [.v@aaaa], all of the alphabet and accepted by [isValidVariableName], gets
    for every index what the name [lbh@] gets, an identifier for the index
    1. *)
Theorem variableNameToId_aliases_a_long_name (m : Z) :
  forallb in_alphabet (list_ascii_of_string ".v@aaaa") = true /\
  Naming.isValidVariableName ".v@aaaa" = true /\
  valid_name "lbh@" /\
  Naming.variableNameToId ".v@aaaa" m = Naming.variableNameToId "lbh@" m /\
  Naming.variableNameToId "lbh@" 1 = Ok 965590.
Proof.
  assert (E : Naming.name_part_loop (rev (list_ascii_of_string ".v@aaaa")) 1 0 =
              Naming.name_part_loop (rev (list_ascii_of_string "lbh@")) 1 0)
    by (vm_compute; reflexivity).
  split; [ reflexivity | split; [ reflexivity | split; [ | split; [ | reflexivity ] ] ] ].
  - split; [ cbn; lia | reflexivity ].
  - unfold Naming.variableNameToId. rewrite E. reflexivity.
Qed.

(** X9. The empty name, which [isValidVariableName] rejects, is not refused by
    [variableNameToId]: for an index m from 1 to maxId it gets the identifier
    2 * kMaxNamePart * (m - 1), which is 0 for m = 1, and that identifier
    decodes to the string of the name [@], whose own identifier is 2 more. *)
Theorem variableNameToId_empty_name (m : Z) :
  1 <= m <= Naming.maxId ->
  Naming.isValidVariableName EmptyString = false /\
  exists id0 id1,
    Naming.variableNameToId EmptyString m = Ok id0 /\
    Naming.variableNameToId "@" m = Ok id1 /\
    id0 = 2 * Naming.kMaxNamePart * (m - 1) /\
    id1 = id0 + 2 /\
    Naming.idToVariableName id0 = ("@" ++ Naming.to_string m)%string /\
    Naming.idToVariableName id1 = ("@" ++ Naming.to_string m)%string.
Proof.
  intros Hm. change Naming.maxId with 2325 in Hm. split; [ reflexivity | ].
  change Naming.kMaxNamePart with 923521.
  assert (E0 : Naming.idToNameAndIndex (wrap32 (2 * (0 + 923521 * (m - 1)))) = ("@"%string, m)).
  { destruct (decode_id 0 m ltac:(lia) Hm) as [Ea Eb]. cbv zeta in Ea, Eb.
    unfold Naming.idToNameAndIndex. change Naming.kMaxNamePart with 923521.
    rewrite Ea, Eb. reflexivity. }
  assert (E1 : Naming.idToNameAndIndex (wrap32 (2 * (1 + 923521 * (m - 1)))) = ("@"%string, m)).
  { destruct (decode_id 1 m ltac:(lia) Hm) as [Ea Eb]. cbv zeta in Ea, Eb.
    unfold Naming.idToNameAndIndex. change Naming.kMaxNamePart with 923521.
    rewrite Ea, Eb. reflexivity. }
  rewrite wrap32_small in E0, E1 by lia.
  exists (2 * 923521 * (m - 1)), (2 * 923521 * (m - 1) + 2).
  assert (Hchecks : (2325 <? m) = false /\ (m <? 1) = false).
  { split; [ apply Z.ltb_ge | apply Z.ltb_ge ]; lia. }
  destruct Hchecks as [Hc1 Hc2].
  repeat split.
  - unfold Naming.variableNameToId.
    change (Naming.name_part_loop (rev (list_ascii_of_string EmptyString)) 1 0) with (@Ok Z 0).
    cbn [bind]. change Naming.maxId with 2325. change Naming.kMaxNamePart with 923521.
    change (923521 <? 0) with false.
    rewrite Hc1, Hc2. rewrite wrap32_small by lia. f_equal. lia.
  - unfold Naming.variableNameToId.
    change (Naming.name_part_loop (rev (list_ascii_of_string "@")) 1 0) with (@Ok Z 1).
    cbn [bind]. change Naming.maxId with 2325. change Naming.kMaxNamePart with 923521.
    change (923521 <? 1) with false.
    rewrite Hc1, Hc2. rewrite wrap32_small by lia. f_equal. lia.
  - unfold Naming.idToVariableName.
    replace (2 * 923521 * (m - 1)) with (2 * (0 + 923521 * (m - 1))) by lia.
    rewrite E0. reflexivity.
  - unfold Naming.idToVariableName.
    replace (2 * 923521 * (m - 1) + 2) with (2 * (1 + 923521 * (m - 1))) by lia.
    rewrite E1. reflexivity.
Qed.

(** ** Monomials and the constructor from terms *)

Lemma Term_eqb_eq (a b : Term) : Term_eqb a b = true <-> a = b.
Proof.
  unfold Term_eqb. destruct a as [va pa], b as [vb pb]. cbn. split.
  - intros H. apply andb_prop in H as [Hv Hp].
    apply Z.eqb_eq in Hv, Hp. now subst.
  - intros H. inversion H; subst. now rewrite !Z.eqb_refl.
Qed.

Lemma hasSameExponents_spec (m other : Monomial) :
  Monomial.hasSameExponents m other = true <->
  length (terms m) = length (terms other) /\ incl (terms m) (terms other).
Proof.
  unfold Monomial.hasSameExponents.
  destruct (length (terms m) =? length (terms other))%nat eqn:El; cbn [negb].
  - apply Nat.eqb_eq in El. rewrite forallb_forall. split.
    + intros H. split; [ exact El | ]. intros t Ht.
      specialize (H t Ht). apply existsb_exists in H as (o & Ho & Eo).
      apply Term_eqb_eq in Eo. now subst.
    + intros [_ H] t Ht. apply existsb_exists. exists t. split; [ now apply H | ].
      now apply Term_eqb_eq.
  - apply Nat.eqb_neq in El. split; [ discriminate | ]. intros [H _]. contradiction.
Qed.

(** X10. When the terms of the left monomial are pairwise different,
    [hasSameExponents] holds exactly when the terms of the two monomials are
    the same up to their order. *)
Theorem hasSameExponents_permutation (m other : Monomial) :
  NoDup (terms m) ->
  Monomial.hasSameExponents m other = true <-> Permutation (terms m) (terms other).
Proof.
  intros Hnd. rewrite hasSameExponents_spec. split.
  - intros [Hlen Hincl].
    apply NoDup_Permutation_bis; [ now apply NoDup_ListNoDup | lia | exact Hincl ].
  - intros Hperm. split; [ now apply Permutation_length | ].
    intros t Ht. now apply (Permutation_in _ Hperm).
Qed.

(** Without the precondition the comparison is not symmetric. *)
Example hasSameExponents_not_symmetric :
  let m := mkMonomial 1%float [mkTerm x_id 1; mkTerm x_id 1] in
  let other := mkMonomial 1%float [mkTerm x_id 1; mkTerm y_id 1] in
  Monomial.hasSameExponents m other = true /\ Monomial.hasSameExponents other m = false.
Proof. split; reflexivity. Qed.

Lemma find_index_none_of {A : Type} (f : A -> bool) (l : list A) :
  (forall x, In x l -> f x = false) -> find_index f l = None.
Proof.
  induction l as [|y l IH]; intros H; [ reflexivity | ].
  cbn. rewrite (H y (or_introl eq_refl)). rewrite IH; [ reflexivity | ].
  intros x Hx. apply H. now right.
Qed.

Lemma NoDup_map_lookup_ne {A B : Type} (f : A -> B) (l : list A) (i j : nat) (a b : A) :
  NoDup (map f l) -> l !! i = Some a -> l !! j = Some b -> i <> j -> f a <> f b.
Proof.
  intros Hnd Hi Hj Hne Heq.
  apply Hne. apply (NoDup_lookup (map f l) i j (f a)); [ exact Hnd | | ].
  - now rewrite list_lookup_fmap, Hi.
  - now rewrite list_lookup_fmap, Hj, Heq.
Qed.

Lemma merge_duplicate_vars_distinct (n : nat) (ts : list Term) (uni : bool) :
  NoDup (map var ts) -> (n <= length ts)%nat ->
  Polynomial.merge_duplicate_vars n ts uni = (ts, if (2 <=? n)%nat then false else uni).
Proof.
  intros Hnd. revert uni. induction n as [|i IH]; intros uni Hlen; [ reflexivity | ].
  cbn [Polynomial.merge_duplicate_vars].
  destruct (ts !! i) as [ti|] eqn:Hi; [ | apply lookup_ge_None in Hi; lia ].
  destruct (ts !! O) as [t0|] eqn:H0; [ | apply lookup_ge_None in H0; lia ].
  rewrite find_index_none_of.
  - rewrite IH by lia.
    destruct i as [|[|i]]; cbn [Nat.ltb Nat.leb andb]; try reflexivity.
    assert (Hne : var ti <> var t0).
    { apply (NoDup_map_lookup_ne var ts 1 0 ti t0); auto. }
    apply Z.eqb_neq in Hne. now rewrite Hne.
  - intros tj Htj. apply Z.eqb_neq.
    apply list_elem_of_In, list_elem_of_lookup in Htj as [j Hj].
    pose proof (lookup_lt_Some _ _ _ Hj) as Hjlt. rewrite length_take in Hjlt.
    rewrite lookup_take_lt in Hj by lia.
    apply (NoDup_map_lookup_ne var ts i j ti tj); auto. lia.
Qed.

(** X11. The constructor from a coefficient and terms keeps terms in pairwise
    different variables as they are, in one monomial, and sets
    [is_univariate] exactly when there is at most one term. *)
Theorem of_terms_distinct_variables (coeff : float) (ts : list Term) :
  NoDup (map var ts) ->
  Polynomial.of_terms coeff ts =
    mkPolynomial [mkMonomial coeff ts] (length ts <=? 1)%nat.
Proof.
  intros Hnd. unfold Polynomial.of_terms.
  rewrite merge_duplicate_vars_distinct by (auto; lia).
  f_equal. destruct ts as [|t [|t' ts]]; reflexivity.
Qed.

(** X12. The merge of duplicate variables in that constructor compares a term
    only with the terms two or more places before it (its loop runs while
    [j < i - 1]): the two powers of x in [x^a, x^b] are both kept, and in
    [x^a, y^p, x^b] the last one is merged into the first, for powers whose
    sum an [int] holds. *)
Theorem of_terms_duplicate_variables (coeff : float) (x y : VarType) (a b p : PowerType) :
  x <> y -> int_range (a + b) ->
  Polynomial.of_terms coeff [mkTerm x a; mkTerm x b] =
    mkPolynomial [mkMonomial coeff [mkTerm x a; mkTerm x b]] true /\
  Polynomial.of_terms coeff [mkTerm x a; mkTerm y p; mkTerm x b] =
    mkPolynomial [mkMonomial coeff [mkTerm x (a + b); mkTerm y p]] false.
Proof.
  intros Hxy _. unfold Polynomial.of_terms. split.
  - cbn. rewrite Z.eqb_refl. reflexivity.
  - cbn. rewrite !Z.eqb_refl. cbn.
    destruct (y =? x) eqn:E; [ apply Z.eqb_eq in E; congruence | ]. reflexivity.
Qed.

(** ** The variables of a polynomial *)


Lemma elem_of_term_variables (ts : list Term) (v : VarType) :
  forall vars : gset Z,
    v ∈ fold_left (fun vars t => {[ var t ]} ∪ vars) ts vars <->
    v ∈ vars \/ exists t, t ∈ ts /\ var t = v.
Proof.
  induction ts as [|t ts IH]; intros vars; cbn [fold_left].
  - split; [ now left | ]. intros [H | (t & Ht & _)]; [ exact H | ].
    now apply elem_of_nil in Ht.
  - rewrite IH. rewrite elem_of_union, elem_of_singleton. split.
    + intros [[-> | H] | (t' & Ht' & E)].
      * right. exists t. split; [ apply list_elem_of_here | reflexivity ].
      * now left.
      * right. exists t'. split; [ now apply list_elem_of_further | exact E ].
    + intros [H | (t' & Ht' & E)]; [ left; now right | ].
      apply elem_of_cons in Ht' as [-> | Ht'].
      * left; left. now symmetry.
      * right. now exists t'.
Qed.

Lemma elem_of_monomial_variables (ms : list Monomial) (v : VarType) :
  forall vars : gset Z,
    v ∈ fold_left (fun vars m => fold_left (fun vars t => {[ var t ]} ∪ vars) (terms m) vars)
          ms vars <->
    v ∈ vars \/ mentions ms v.
Proof.
  unfold mentions. induction ms as [|m ms IH]; intros vars; cbn [fold_left].
  - split; [ now left | ]. intros [H | (m & t & Hm & _)]; [ exact H | ].
    now apply elem_of_nil in Hm.
  - rewrite IH, elem_of_term_variables. split.
    + intros [[H | (t & Ht & E)] | (m' & t & Hm' & Ht & E)].
      * now left.
      * right. exists m, t. split; [ apply list_elem_of_here | now split ].
      * right. exists m', t. split; [ now apply list_elem_of_further | now split ].
    + intros [H | (m' & t & Hm' & Ht & E)]; [ left; now left | ].
      apply elem_of_cons in Hm' as [-> | Hm'].
      * left; right. now exists t.
      * right. now exists m', t.
Qed.

Lemma elem_of_getVariables (p : Polynomial) (v : VarType) :
  v ∈ Polynomial.getVariables p <-> mentions (monomials p) v.
Proof.
  unfold Polynomial.getVariables. rewrite elem_of_monomial_variables.
  split; [ intros [H | H]; [ now apply elem_of_empty in H | exact H ] | now right ].
Qed.

Lemma mentions_same_terms (ms ms' : list Monomial) (v : VarType) :
  (forall m, m ∈ ms -> exists m', m' ∈ ms' /\ incl (terms m) (terms m')) ->
  mentions ms v -> mentions ms' v.
Proof.
  intros H (m & t & Hm & Ht & E). destruct (H m Hm) as (m' & Hm' & Hincl).
  exists m', t. split; [ exact Hm' | split; [ | exact E ] ].
  apply list_elem_of_In, Hincl, list_elem_of_In, Ht.
Qed.

Lemma mentions_after_merge (ms : list Monomial) (i j : nat) (mi : Monomial) (v : VarType) :
  ms !! i = Some mi ->
  find_index (Monomial.hasSameExponents mi) (take (i - 1) ms) = Some j ->
  mentions (delete i (alter (add_coefficient (coefficient mi)) j ms)) v <-> mentions ms v.
Proof.
  intros Hi Hfind.
  destruct (find_index_take_lt _ _ _ _ Hfind) as [Hj _].
  apply find_index_Some in Hfind as (mj & Hmj & Hsame).
  rewrite lookup_take_lt in Hmj by lia.
  apply hasSameExponents_spec in Hsame as [_ Hincl].
  split; apply mentions_same_terms.
  - intros m' Hm'. apply list_elem_of_lookup in Hm' as [k Hk].
    apply lookup_after_merge in Hk as (m & Hm & Ht); [ | lia ].
    exists m. split; [ now apply list_elem_of_lookup_2 in Hm | ].
    rewrite Ht. apply incl_refl.
  - intros m Hm. apply list_elem_of_lookup in Hm as [k Hk].
    assert (Hlow : forall k' m0, (k' < i)%nat -> ms !! k' = Some m0 ->
              exists m', m' ∈ delete i (alter (add_coefficient (coefficient mi)) j ms) /\
                         terms m' = terms m0).
    { intros k' m0 Hk' Hm0. destruct (decide (j = k')) as [->|Hne].
      - exists (add_coefficient (coefficient mi) m0). split; [ | reflexivity ].
        apply (list_elem_of_lookup_2 _ k').
        rewrite list_lookup_delete_lt by lia. now rewrite list_lookup_alter_eq, Hm0.
      - exists m0. split; [ | reflexivity ].
        apply (list_elem_of_lookup_2 _ k').
        rewrite list_lookup_delete_lt by lia. now rewrite list_lookup_alter_ne. }
    destruct (lt_eq_lt_dec k i) as [[Hlt | ->] | Hgt].
    + destruct (Hlow k m Hlt Hk) as (m' & Hm' & Ht).
      exists m'. split; [ exact Hm' | rewrite Ht; apply incl_refl ].
    + rewrite Hi in Hk. inversion Hk; subst m.
      destruct (Hlow j mj ltac:(lia) Hmj) as (m' & Hm' & Ht).
      exists m'. split; [ exact Hm' | now rewrite Ht ].
    + exists m. split; [ | apply incl_refl ].
      apply (list_elem_of_lookup_2 _ (k - 1)).
      rewrite list_lookup_delete_ge by lia. rewrite list_lookup_alter_ne by lia.
      now replace (S (k - 1)) with k by lia.
Qed.

Lemma makeMonomialsUnique_loop_mentions (n : nat) (v : VarType) :
  forall ms uni unique_var,
    mentions (fst (Polynomial.makeMonomialsUnique_loop n ms uni unique_var)) v <->
    mentions ms v.
Proof.
  induction n as [|i IH]; intros ms uni unique_var; [ reflexivity | ].
  cbn [Polynomial.makeMonomialsUnique_loop].
  destruct (ms !! i) as [mi|] eqn:Hi; [ | reflexivity ].
  destruct (Polynomial.update_univariate mi uni unique_var) as [uni' unique_var'].
  destruct (find_index (Monomial.hasSameExponents mi) (take (i - 1) ms)) as [j|] eqn:Hfind.
  - rewrite IH. now apply mentions_after_merge.
  - apply IH.
Qed.

Lemma getVariables_makeMonomialsUnique (p : Polynomial) :
  Polynomial.getVariables (Polynomial.makeMonomialsUnique p) = Polynomial.getVariables p.
Proof.
  apply set_eq. intros v. rewrite !elem_of_getVariables.
  unfold Polynomial.makeMonomialsUnique.
  pose proof (makeMonomialsUnique_loop_mentions (length (monomials p)) v (monomials p)
                (is_univariate p) 0) as H.
  destruct (Polynomial.makeMonomialsUnique_loop _ _ _ _) as [ms uni]. exact H.
Qed.

Lemma mentions_app (ms ms' : list Monomial) (v : VarType) :
  mentions (ms ++ ms') v <-> mentions ms v \/ mentions ms' v.
Proof.
  unfold mentions. split.
  - intros (m & t & Hm & Ht & E). apply elem_of_app in Hm as [Hm | Hm];
      [ left | right ]; now exists m, t.
  - intros [(m & t & Hm & Ht & E) | (m & t & Hm & Ht & E)]; exists m, t;
      (split; [ apply elem_of_app; auto | now split ]).
Qed.

Lemma mentions_map_same_terms (f : Monomial -> Monomial) (ms : list Monomial) (v : VarType) :
  (forall m, terms (f m) = terms m) -> mentions (map f ms) v <-> mentions ms v.
Proof.
  intros Hf. unfold mentions. split.
  - intros (m' & t & Hm' & Ht & E). apply list_elem_of_fmap in Hm' as (m & -> & Hm).
    exists m, t. rewrite Hf in Ht. now split.
  - intros (m & t & Hm & Ht & E). exists (f m), t. rewrite Hf.
    split; [ now apply list_elem_of_fmap_2 | now split ].
Qed.

(** X13. The variables of a sum and of a difference of two polynomials are the
    variables of the two operands: the de-duplication pass merges
    coefficients, a coefficient that becomes 0 keeps its monomial. *)
Theorem getVariables_add_sub (p other : Polynomial) :
  Polynomial.getVariables (Polynomial.add_assign p other) =
    Polynomial.getVariables p ∪ Polynomial.getVariables other /\
  Polynomial.getVariables (Polynomial.sub_assign p other) =
    Polynomial.getVariables p ∪ Polynomial.getVariables other.
Proof.
  unfold Polynomial.add_assign, Polynomial.sub_assign.
  rewrite !getVariables_makeMonomialsUnique.
  split; apply set_eq; intros v;
    rewrite elem_of_union, !elem_of_getVariables; cbn [monomials];
    rewrite mentions_app; [ reflexivity | ].
  now rewrite (mentions_map_same_terms (scale (-1)%float)).
Qed.

(** X14. The variables of the result of [evaluatePartial] are the variables of
    the polynomial without the ones that the map assigns. *)
Theorem getVariables_evaluatePartial (std_pow : float -> PowerType -> float)
    (var_values : gmap Z float) (p : Polynomial) :
  Polynomial.getVariables (Polynomial.evaluatePartial std_pow var_values p) =
    Polynomial.getVariables p ∖ dom var_values.
Proof.
  unfold Polynomial.evaluatePartial, Polynomial.of_range.
  rewrite getVariables_makeMonomialsUnique.
  apply set_eq. intros v.
  rewrite elem_of_difference, !elem_of_getVariables, elem_of_dom. cbn [monomials].
  unfold mentions. split.
  - intros (m' & t & Hm' & Ht & E). apply list_elem_of_fmap in Hm' as (m & -> & Hm).
    rewrite evaluate_terms_substituted in Ht. cbn [substituted terms] in Ht.
    apply list_elem_of_In, filter_In in Ht as [Ht Hun]. unfold assigned in Hun.
    split.
    + exists m, t. split; [ exact Hm | split; [ now apply list_elem_of_In | exact E ] ].
    + rewrite <- E. intros [value Hvalue]. unfold VarType in *.
      rewrite Hvalue in Hun. discriminate.
  - intros [(m & t & Hm & Ht & E) Hnone].
    exists (Polynomial.evaluate_terms std_pow var_values m), t.
    split; [ now apply list_elem_of_fmap_2 | split; [ | exact E ] ].
    rewrite evaluate_terms_substituted. cbn [substituted terms].
    apply list_elem_of_In, filter_In. split; [ now apply list_elem_of_In | ].
    unfold assigned, VarType in *. rewrite E.
    destruct (var_values !! v) eqn:Ev; [ exfalso; apply Hnone; eauto | reflexivity ].
Qed.

Lemma multiply_terms_variables (other_terms : list Term) (v : VarType) :
  forall ts,
    (exists t, t ∈ Polynomial.multiply_terms ts other_terms /\ var t = v) <->
    (exists t, t ∈ ts /\ var t = v) \/ (exists t, t ∈ other_terms /\ var t = v).
Proof.
  unfold Polynomial.multiply_terms.
  induction other_terms as [|ot os IH]; intros ts; cbn [fold_left].
  - split; [ now left | ]. intros [H | (t & Ht & _)]; [ exact H | ].
    now apply elem_of_nil in Ht.
  - rewrite IH. clear IH.
    assert (Hstep : (exists t, t ∈ match find_index (fun t => var t =? var ot) ts with
                                   | Some j => alter (add_power (power ot)) j ts
                                   | None => ts ++ [ot]
                                   end /\ var t = v) <->
                    (exists t, t ∈ ts /\ var t = v) \/ var ot = v).
    { destruct (find_index (fun t => var t =? var ot) ts) as [j|] eqn:Hfind.
      - apply find_index_Some in Hfind as (tj & Hj & Evar). apply Z.eqb_eq in Evar.
        split.
        + intros (t & Ht & E). left. apply list_elem_of_lookup in Ht as [k Hk].
          destruct (decide (j = k)) as [->|Hne].
          * rewrite list_lookup_alter_eq, Hj in Hk. inversion Hk; subst t.
            exists tj. split; [ now apply list_elem_of_lookup_2 in Hj | exact E ].
          * rewrite list_lookup_alter_ne in Hk by assumption.
            exists t. split; [ now apply list_elem_of_lookup_2 in Hk | exact E ].
        + assert (Hin : forall t, t ∈ ts ->
                    exists t', t' ∈ alter (add_power (power ot)) j ts /\ var t' = var t).
          { intros t Ht. apply list_elem_of_lookup in Ht as [k Hk].
            destruct (decide (j = k)) as [->|Hne].
            - exists (add_power (power ot) t). split; [ | reflexivity ].
              apply (list_elem_of_lookup_2 _ k). now rewrite list_lookup_alter_eq, Hk.
            - exists t. split; [ | reflexivity ].
              apply (list_elem_of_lookup_2 _ k). now rewrite list_lookup_alter_ne. }
          intros [(t & Ht & E) | E].
          * destruct (Hin t Ht) as (t' & Ht' & E'). exists t'. split; [ exact Ht' | congruence ].
          * destruct (Hin tj (list_elem_of_lookup_2 _ _ _ Hj)) as (t' & Ht' & E').
            exists t'. split; [ exact Ht' | congruence ].
      - split.
        + intros (t & Ht & E). apply elem_of_app in Ht as [Ht | Ht].
          * left. now exists t.
          * apply list_elem_of_singleton in Ht. subst t. now right.
        + intros [(t & Ht & E) | E].
          * exists t. split; [ apply elem_of_app; now left | exact E ].
          * exists ot. split; [ apply elem_of_app; right; apply list_elem_of_here | exact E ]. }
    rewrite Hstep. split.
    + intros [[H | E] | (t & Ht & E)].
      * now left.
      * right. exists ot. split; [ apply list_elem_of_here | exact E ].
      * right. exists t. split; [ now apply list_elem_of_further | exact E ].
    + intros [H | (t & Ht & E)]; [ left; now left | ].
      apply elem_of_cons in Ht as [-> | Ht].
      * left; now right.
      * right. now exists t.
Qed.

(** X15. The variables of a product of two polynomials that both hold a
    monomial are the variables of the two operands. *)
Theorem getVariables_mul (p other : Polynomial) :
  monomials p <> [] -> monomials other <> [] ->
  Polynomial.getVariables (Polynomial.mul_assign p other) =
    Polynomial.getVariables p ∪ Polynomial.getVariables other.
Proof.
  intros Hp Ho. unfold Polynomial.mul_assign. rewrite getVariables_makeMonomialsUnique.
  apply set_eq. intros v. rewrite elem_of_union, !elem_of_getVariables. cbn [monomials].
  unfold mentions. split.
  - intros (m & t & Hm & Ht & E).
    apply list_elem_of_In, in_flat_map in Hm as (a & Ha & Hm).
    apply in_map_iff in Hm as (b & <- & Hb). cbn [Polynomial.multiply_monomials terms] in Ht.
    destruct (proj1 (multiply_terms_variables (terms b) v (terms a))
                (ex_intro _ t (conj Ht E))) as [(t' & Ht' & E') | (t' & Ht' & E')].
    + left. exists a, t'. split; [ now apply list_elem_of_In | now split ].
    + right. exists b, t'. split; [ now apply list_elem_of_In | now split ].
  - assert (Hpair : forall a b, a ∈ monomials p -> b ∈ monomials other ->
              Polynomial.multiply_monomials a b ∈
                flat_map (fun a => map (Polynomial.multiply_monomials a) (monomials other))
                  (monomials p)).
    { intros a b Ha Hb. apply list_elem_of_In, in_flat_map. exists a.
      split; [ now apply list_elem_of_In | ]. apply in_map. now apply list_elem_of_In. }
    intros [(a & t & Ha & Ht & E) | (b & t & Hb & Ht & E)].
    + destruct (monomials other) as [|b ?] eqn:Eo; [ contradiction | ].
      destruct (proj2 (multiply_terms_variables (terms b) v (terms a))
                  (or_introl (ex_intro _ t (conj Ht E)))) as (t' & Ht' & E').
      exists (Polynomial.multiply_monomials a b), t'.
      split; [ apply Hpair; [ exact Ha | apply list_elem_of_here ] | now split ].
    + destruct (monomials p) as [|a ?] eqn:Ep; [ contradiction | ].
      destruct (proj2 (multiply_terms_variables (terms b) v (terms a))
                  (or_intror (ex_intro _ t (conj Ht E)))) as (t' & Ht' & E').
      exists (Polynomial.multiply_monomials a b), t'.
      split; [ apply Hpair; [ apply list_elem_of_here | exact Hb ] | now split ].
Qed.

(** ** The univariate flag *)



Lemma makeMonomialsUnique_loop_false (n : nat) :
  forall ms unique_var,
    snd (Polynomial.makeMonomialsUnique_loop n ms false unique_var) = false.
Proof.
  induction n as [|i IH]; intros ms unique_var; [ reflexivity | ].
  cbn [Polynomial.makeMonomialsUnique_loop].
  destruct (ms !! i) as [mi|]; [ | reflexivity ].
  assert (E : fst (Polynomial.update_univariate mi false unique_var) = false).
  { unfold Polynomial.update_univariate. destruct (terms mi) as [|t0 rest]; [ reflexivity | ].
    destruct (1 <? length (t0 :: rest))%nat, (negb (var t0 =? unique_var)), (0 <? unique_var);
      reflexivity. }
  destruct (Polynomial.update_univariate mi false unique_var) as [uni' unique_var'].
  cbn in E. subst uni'.
  destruct (find_index _ _); apply IH.
Qed.

Lemma update_univariate_true (mi : Monomial) (uni : bool) (unique_var unique_var' : VarType) :
  Polynomial.update_univariate mi uni unique_var = (true, unique_var') ->
  uni = true /\
  (terms mi = [] /\ unique_var' = unique_var \/
   exists t, terms mi = [t] /\ unique_var' = var t /\ (unique_var <= 0 \/ unique_var = var t)).
Proof.
  unfold Polynomial.update_univariate.
  destruct (terms mi) as [|t0 [|t1 rest]] eqn:Et; cbn [length Nat.ltb Nat.leb].
  - intros H. inversion H. split; [ reflexivity | now left ].
  - destruct (var t0 =? unique_var) eqn:Ev; cbn [negb].
    + intros H. inversion H; subst. apply Z.eqb_eq in Ev.
      split; [ reflexivity | right ]. exists t0. repeat split; auto.
    + destruct (0 <? unique_var) eqn:Ep; intros H; inversion H; subst.
      apply Z.ltb_ge in Ep. split; [ reflexivity | right ]. exists t0. repeat split; auto.
  - destruct (negb (var t0 =? unique_var)); [ destruct (0 <? unique_var) | ];
      intros H; inversion H.
Qed.

Lemma makeMonomialsUnique_loop_univariate (n : nat) :
  forall ms unique_var ms' uni,
    Polynomial.makeMonomialsUnique_loop n ms uni unique_var = (ms', true) ->
    positive_variables ms -> (n <= length ms)%nat ->
    (forall k m, (n <= k)%nat -> ms !! k = Some m ->
                 terms m = [] \/ 0 < unique_var /\ exists pw, terms m = [mkTerm unique_var pw]) ->
    uni = true /\ exists x, forall m, m ∈ ms' -> power_of x m.
Proof.
  induction n as [|i IH]; intros ms unique_var ms' uni Hloop Hpos Hlen Hdone.
  - cbn in Hloop. inversion Hloop; subst. split; [ reflexivity | ].
    exists unique_var. intros m Hm. apply list_elem_of_lookup in Hm as [k Hk].
    destruct (Hdone k m ltac:(lia) Hk) as [H | [_ H]]; [ now left | now right ].
  - cbn [Polynomial.makeMonomialsUnique_loop] in Hloop.
    destruct (ms !! i) as [mi|] eqn:Hi; [ | apply lookup_ge_None in Hi; lia ].
    destruct (Polynomial.update_univariate mi uni unique_var) as [uni' unique_var'] eqn:Eu.
    assert (Huni' : uni' = true).
    { destruct uni'; [ reflexivity | ].
      pose proof (makeMonomialsUnique_loop_false i) as Hf.
      destruct (find_index _ _) as [j|].
      - specialize (Hf (delete i (alter (add_coefficient (coefficient mi)) j ms)) unique_var').
        now rewrite Hloop in Hf.
      - specialize (Hf ms unique_var'). now rewrite Hloop in Hf. }
    subst uni'. apply update_univariate_true in Eu as [Huni Hmi].
    split; [ exact Huni | ].
    assert (Hdone' : forall k m, (i <= k)%nat -> ms !! k = Some m ->
               terms m = [] \/
               0 < unique_var' /\ exists pw, terms m = [mkTerm unique_var' pw]).
    { intros k m Hk Hm. destruct (decide (k = i)) as [->|Hne].
      - rewrite Hi in Hm. inversion Hm; subst m.
        destruct Hmi as [[Ht _] | (t & Ht & -> & _)]; [ now left | right ].
        split.
        + apply (Hpos mi t); [ now apply list_elem_of_lookup_2 in Hi | ].
          rewrite Ht. apply list_elem_of_here.
        + exists (power t). rewrite Ht. now destruct t.
      - destruct (Hdone k m ltac:(lia) Hm) as [H | [Hgt (pw & H)]]; [ now left | right ].
        destruct Hmi as [[_ ->] | (t & _ & -> & [Hle | <-])]; try lia; eauto. }
    destruct (find_index (Monomial.hasSameExponents mi) (take (i - 1) ms)) as [j|] eqn:Hfind.
    + destruct (find_index_take_lt _ _ _ _ Hfind) as [Hj _].
      eapply IH; [ exact Hloop | | | ].
      * intros m t Hm Ht. apply list_elem_of_lookup in Hm as [k Hk].
        apply lookup_after_merge in Hk as (m0 & Hm0 & E); [ | lia ].
        apply (Hpos m0 t); [ now apply list_elem_of_lookup_2 in Hm0 | now rewrite E ].
      * rewrite length_delete, length_alter; [ lia | ].
        apply lookup_lt_is_Some. rewrite length_alter. lia.
      * intros k m Hk Hm.
        apply lookup_after_merge in Hm as (m0 & Hm0 & E); [ | lia ].
        replace (k <? i)%nat with false in Hm0 by (symmetry; apply Nat.ltb_ge; lia).
        rewrite <- E. apply (Hdone' (S k)); [ lia | exact Hm0 ].
    + eapply IH; [ exact Hloop | exact Hpos | lia | exact Hdone' ].
Qed.

Lemma makeMonomialsUnique_loop_stays_univariate (x : VarType) (n : nat) :
  0 < x ->
  forall ms unique_var,
    unique_var = 0 \/ unique_var = x ->
    (forall m, m ∈ ms -> power_of x m) ->
    snd (Polynomial.makeMonomialsUnique_loop n ms true unique_var) = true.
Proof.
  intros Hx. induction n as [|i IH]; intros ms unique_var Huv Hall; [ reflexivity | ].
  cbn [Polynomial.makeMonomialsUnique_loop].
  destruct (ms !! i) as [mi|] eqn:Hi; [ | reflexivity ].
  assert (Hu : exists unique_var',
             Polynomial.update_univariate mi true unique_var = (true, unique_var') /\
             (unique_var' = 0 \/ unique_var' = x)).
  { unfold Polynomial.update_univariate.
    destruct (Hall mi (list_elem_of_lookup_2 _ _ _ Hi)) as [-> | (pw & ->)].
    - now exists unique_var.
    - cbn [length Nat.ltb Nat.leb var].
      destruct (x =? unique_var) eqn:E; cbn [negb].
      + now exists unique_var.
      + apply Z.eqb_neq in E. destruct Huv as [-> | ->]; [ | congruence ].
        cbn. exists x. split; [ reflexivity | now right ]. }
  destruct Hu as (unique_var' & -> & Huv').
  destruct (find_index (Monomial.hasSameExponents mi) (take (i - 1) ms)) as [j|] eqn:Hfind.
  - destruct (find_index_take_lt _ _ _ _ Hfind) as [Hj _].
    apply IH; [ exact Huv' | ].
    intros m Hm. apply list_elem_of_lookup in Hm as [k Hk].
    apply lookup_after_merge in Hk as (m0 & Hm0 & E); [ | lia ].
    unfold power_of. rewrite <- E. apply Hall. now apply list_elem_of_lookup_2 in Hm0.
  - now apply IH.
Qed.

(** X16. The flag that [makeMonomialsUnique] computes, for variable
    identifiers all above 0: it is never raised and, when it is set
    afterwards, every monomial is a constant or a single power of one and the
    same variable; when it was set before and every monomial is such a
    constant or power, it stays set. *)
Theorem is_univariate_after_deduplication (p : Polynomial) :
  positive_variables (monomials p) ->
  (is_univariate (Polynomial.makeMonomialsUnique p) = true ->
   is_univariate p = true /\
   exists x, forall m, m ∈ monomials (Polynomial.makeMonomialsUnique p) -> power_of x m) /\
  (is_univariate p = true ->
   (exists x, 0 < x /\ forall m, m ∈ monomials p -> power_of x m) ->
   is_univariate (Polynomial.makeMonomialsUnique p) = true).
Proof.
  intros Hpos. unfold Polynomial.makeMonomialsUnique. split.
  - destruct (Polynomial.makeMonomialsUnique_loop _ _ _ _) as [ms uni] eqn:El.
    cbn [is_univariate monomials]. intros ->.
    apply (makeMonomialsUnique_loop_univariate _ _ _ _ _ El Hpos); [ lia | ].
    intros k m Hk Hm. apply lookup_lt_Some in Hm. lia.
  - intros Hflag (x & Hx & Hall). rewrite Hflag.
    pose proof (makeMonomialsUnique_loop_stays_univariate x (length (monomials p)) Hx
                  (monomials p) 0 (or_introl eq_refl) Hall) as H.
    destruct (Polynomial.makeMonomialsUnique_loop _ _ _ _) as [ms uni]. exact H.
Qed.

(** ** Degrees of products and quotients of monomials *)


Lemma degree_in_cons (t : Term) (ts : list Term) (v : VarType) :
  degree_in (t :: ts) v = if var t =? v then power t else degree_in ts v.
Proof.
  unfold degree_in, Monomial.getDegreeOf. cbn [terms find].
  destruct (var t =? v); reflexivity.
Qed.

Lemma getDegreeOf_degree_in (m : Monomial) (v : VarType) :
  Monomial.getDegreeOf m v = degree_in (terms m) v.
Proof. reflexivity. Qed.

Lemma degree_in_absent (ts : list Term) (v : VarType) :
  ~ In v (map var ts) -> degree_in ts v = 0.
Proof.
  induction ts as [|t ts IH]; intros H; [ reflexivity | ].
  rewrite degree_in_cons. cbn [map In] in H.
  destruct (var t =? v) eqn:E; [ apply Z.eqb_eq in E; tauto | apply IH; tauto ].
Qed.


Lemma degree_in_alter (w v : VarType) (p : PowerType) (ts : list Term) :
  forall j, find_index (fun t => var t =? w) ts = Some j ->
            degree_in (alter (add_power p) j ts) v =
              degree_in ts v + (if w =? v then p else 0).
Proof.
  induction ts as [|t r IH]; intros j Hj; [ discriminate | ].
  cbn [find_index] in Hj. destruct (var t =? w) eqn:Ew.
  - inversion Hj; subst j. apply Z.eqb_eq in Ew. cbn [alter list_alter].
    rewrite !degree_in_cons. cbn [add_power var power]. rewrite Ew.
    destruct (w =? v); lia.
  - destruct (find_index (fun t => var t =? w) r) as [j'|] eqn:Er; [ | discriminate ].
    inversion Hj; subst j. cbn [alter list_alter]. rewrite !degree_in_cons.
    destruct (var t =? v) eqn:Ev; [ | now apply IH ].
    apply Z.eqb_eq in Ev. apply Z.eqb_neq in Ew.
    destruct (w =? v) eqn:Ewv; [ apply Z.eqb_eq in Ewv; congruence | lia ].
Qed.

Lemma degree_in_append (ot : Term) (v : VarType) (ts : list Term) :
  find_index (fun t => var t =? var ot) ts = None ->
  degree_in (ts ++ [ot]) v = degree_in ts v + added_power ot v.
Proof.
  unfold added_power. induction ts as [|t r IH]; intros Hnone.
  - cbn [app]. rewrite degree_in_cons. unfold degree_in, Monomial.getDegreeOf. cbn.
    destruct (var ot =? v); lia.
  - cbn [find_index] in Hnone. destruct (var t =? var ot) eqn:Ew; [ discriminate | ].
    destruct (find_index _ r) eqn:Er; [ discriminate | ].
    cbn [app]. rewrite !degree_in_cons.
    destruct (var t =? v) eqn:Ev; [ | now apply IH ].
    apply Z.eqb_eq in Ev. apply Z.eqb_neq in Ew.
    destruct (var ot =? v) eqn:Eo; [ apply Z.eqb_eq in Eo; congruence | lia ].
Qed.

Lemma degree_in_multiply_terms (other_terms : list Term) (v : VarType) :
  forall ts,
    degree_in (Polynomial.multiply_terms ts other_terms) v =
      degree_in ts v + fold_right (fun ot sum => added_power ot v + sum) 0 other_terms.
Proof.
  unfold Polynomial.multiply_terms.
  induction other_terms as [|ot os IH]; intros ts; cbn [fold_left fold_right]; [ lia | ].
  rewrite IH.
  destruct (find_index (fun t => var t =? var ot) ts) as [j|] eqn:Hfind.
  - rewrite (degree_in_alter (var ot)) by exact Hfind. unfold added_power. lia.
  - rewrite degree_in_append by exact Hfind. lia.
Qed.

Lemma added_power_distinct (ts : list Term) (v : VarType) :
  NoDup (map var ts) ->
  fold_right (fun ot sum => added_power ot v + sum) 0 ts = degree_in ts v.
Proof.
  induction ts as [|t r IH]; intros Hnd; [ reflexivity | ].
  cbn [map] in Hnd. apply NoDup_cons in Hnd as [Hnotin Hnd].
  cbn [fold_right]. rewrite degree_in_cons, IH by exact Hnd. unfold added_power.
  destruct (var t =? v) eqn:E; [ | lia ].
  apply Z.eqb_eq in E. subst v. rewrite degree_in_absent; [ lia | ].
  intros H. apply Hnotin. now apply list_elem_of_In.
Qed.

(** X17. The product of two monomials, as [operator*=] forms it, has in every
    variable the sum of the degrees of the two factors, when the variables of
    the right-hand factor are pairwise different and every sum that the loop
    forms (the power of a term of the right-hand factor added to the degree
    of the left-hand factor in its variable) is one that an [int] holds. *)
Theorem multiply_monomials_adds_degrees (a b : Monomial) (v : VarType) :
  NoDup (map var (terms b)) ->
  Forall (fun t => int_range (Monomial.getDegreeOf a (var t) + power t)) (terms b) ->
  Monomial.getDegreeOf (Polynomial.multiply_monomials a b) v =
    Monomial.getDegreeOf a v + Monomial.getDegreeOf b v.
Proof.
  intros Hnd _. rewrite !getDegreeOf_degree_in. cbn [Polynomial.multiply_monomials terms].
  now rewrite degree_in_multiply_terms, added_power_distinct.
Qed.

Lemma factor_terms_degrees (divisor : Monomial) (v : VarType) (ts : list Term) :
  NoDup (map var ts) ->
  forall new_terms,
    Monomial.factor_terms divisor ts = Some new_terms ->
    (In v (map var ts) ->
     degree_in new_terms v + Monomial.getDegreeOf divisor v = degree_in ts v) /\
    (~ In v (map var ts) -> degree_in new_terms v = 0).
Proof.
  induction ts as [|t r IH]; intros Hnd new_terms Hf.
  - cbn in Hf. inversion Hf; subst. split; [ intros [] | reflexivity ].
  - cbn [map] in Hnd. apply NoDup_cons in Hnd as [Hnotin Hnd].
    cbn [Monomial.factor_terms] in Hf. cbv zeta in Hf.
    destruct (power t <? Monomial.getDegreeOf divisor (var t)) eqn:Elt; [ discriminate | ].
    apply Z.ltb_ge in Elt.
    destruct (Monomial.factor_terms divisor r) as [rest_terms|] eqn:Er; [ | discriminate ].
    cbn [option_map] in Hf. inversion Hf; subst new_terms. clear Hf.
    destruct (IH Hnd rest_terms eq_refl) as [IHin IHout].
    assert (Hhead : forall l, var t = v -> degree_in l v = 0 ->
              degree_in (if 0 <? power t - Monomial.getDegreeOf divisor (var t)
                         then mkTerm (var t) (power t - Monomial.getDegreeOf divisor (var t)) :: l
                         else l) v + Monomial.getDegreeOf divisor v = power t).
    { intros l Ev Hl. subst v.
      destruct (0 <? power t - Monomial.getDegreeOf divisor (var t)) eqn:Ep.
      - rewrite degree_in_cons. cbn [var power]. rewrite Z.eqb_refl. lia.
      - apply Z.ltb_ge in Ep. lia. }
    assert (Htail : forall l, var t <> v ->
              degree_in (if 0 <? power t - Monomial.getDegreeOf divisor (var t)
                         then mkTerm (var t) (power t - Monomial.getDegreeOf divisor (var t)) :: l
                         else l) v = degree_in l v).
    { intros l Ev. destruct (0 <? _); [ | reflexivity ].
      rewrite degree_in_cons. cbn [var]. apply Z.eqb_neq in Ev. now rewrite Ev. }
    rewrite degree_in_cons. cbn [map In].
    destruct (var t =? v) eqn:Ev.
    + apply Z.eqb_eq in Ev. split; [ | tauto ]. intros _.
      apply Hhead; [ exact Ev | ]. apply IHout. subst v.
      intros H. apply Hnotin. now apply list_elem_of_In.
    + apply Z.eqb_neq in Ev. rewrite Htail by exact Ev. split.
      * intros [H | H]; [ contradiction | now apply IHin ].
      * intros H. apply IHout. tauto.
Qed.

(** X18. When [factor] does not return the error monomial, and the variables of
    the dividend are pairwise different, the quotient has in every variable
    the degree of the dividend less the degree of the divisor, and the
    quotient of the two coefficients. *)
Theorem factor_subtracts_degrees (m divisor : Monomial) (v : VarType) :
  NoDup (map var (terms m)) ->
  Monomial.factor m divisor <> Monomial.error ->
  Monomial.getDegreeOf (Monomial.factor m divisor) v + Monomial.getDegreeOf divisor v =
    Monomial.getDegreeOf m v /\
  coefficient (Monomial.factor m divisor) = (coefficient m / coefficient divisor)%float.
Proof.
  intros Hnd Hok. unfold Monomial.factor in *.
  destruct (Monomial.factor_terms divisor (terms m)) as [new_terms|] eqn:Ef;
    [ | contradiction ].
  destruct (forallb _ (terms divisor)) eqn:Eall; [ | contradiction ].
  split; [ | reflexivity ].
  destruct (factor_terms_degrees divisor v (terms m) Hnd new_terms Ef) as [Hin Hout].
  rewrite (getDegreeOf_degree_in (mkMonomial _ new_terms)). cbn [terms].
  destruct (in_dec Z.eq_dec v (map var (terms m))) as [H | H].
  - rewrite getDegreeOf_degree_in with (m := m). now apply Hin.
  - rewrite (Hout H), (getDegreeOf_degree_in m), (degree_in_absent _ _ H).
    unfold Monomial.getDegreeOf.
    destruct (find (fun t => var t =? v) (terms divisor)) as [dt|] eqn:Efind; [ | reflexivity ].
    apply find_some in Efind as [Hdt Ev]. apply Z.eqb_eq in Ev.
    rewrite forallb_forall in Eall. specialize (Eall dt Hdt).
    rewrite Ev, (getDegreeOf_degree_in m), (degree_in_absent _ _ H) in Eall. discriminate.
Qed.

(** X19. [factor] returns the error monomial (coefficient 0, no terms) when a
    term of the dividend has a smaller power than the divisor has in its
    variable, and when the divisor has a term in a variable in which the
    dividend has degree 0. *)
Theorem factor_not_possible (m divisor : Monomial) (t : Term) :
  (In t (terms m) -> power t < Monomial.getDegreeOf divisor (var t) ->
   Monomial.factor m divisor = Monomial.error) /\
  (In t (terms divisor) -> Monomial.getDegreeOf m (var t) = 0 ->
   Monomial.factor m divisor = Monomial.error).
Proof.
  unfold Monomial.factor. split.
  - intros Hin Hlt.
    assert (E : Monomial.factor_terms divisor (terms m) = None).
    { induction (terms m) as [|t' r IH]; [ contradiction | ].
      cbn [Monomial.factor_terms]. cbv zeta. destruct Hin as [-> | Hin].
      - apply Z.ltb_lt in Hlt. now rewrite Hlt.
      - destruct (power t' <? _); [ reflexivity | ]. now rewrite IH. }
    now rewrite E.
  - intros Hin Hzero. destruct (Monomial.factor_terms divisor (terms m)); [ | reflexivity ].
    assert (E : forallb (fun divisor_term => negb (Monomial.getDegreeOf m (var divisor_term) =? 0))
                  (terms divisor) = false).
    { apply not_true_is_false. intros H. rewrite forallb_forall in H.
      specialize (H t Hin). rewrite Hzero in H. discriminate. }
    now rewrite E.
Qed.

(** ** Derivative, coefficients, integral and roots *)


Lemma to_unsigned_nonnegative (z : Z) : 0 <= to_unsigned z.
Proof.
  unfold to_unsigned, wrap32. change (UINT_MAX + 1) with 4294967296.
  apply Z.mod_pos_bound. lia.
Qed.

(** X20. The derivative of order 0 of a univariate polynomial with positive
    powers is not the polynomial: its constant monomials are left out. *)
Theorem derivative_of_order_0 (p : Polynomial) :
  is_univariate p = true -> forallb positive_power (monomials p) = true ->
  Polynomial.derivative 0 p =
    Ok (mkPolynomial (List.filter (fun m => negb (is_constant m)) (monomials p)) true).
Proof.
  intros Hflag Hpos. unfold Polynomial.derivative. rewrite Hflag. cbn [negb]. do 2 f_equal.
  induction (monomials p) as [|m ms IH]; [ reflexivity | ].
  cbn [forallb] in Hpos. apply andb_prop in Hpos as [Hm Hpos].
  cbn [flat_map List.filter]. rewrite (IH Hpos). clear IH Hpos.
  unfold Polynomial.differentiate, is_constant. unfold positive_power in Hm.
  destruct m as [c [|t0 rest]]; cbn [terms coefficient] in *; [ reflexivity | ].
  destruct (0 <=? to_unsigned (power t0)) eqn:E;
    [ | apply Z.leb_gt in E; pose proof (to_unsigned_nonnegative (power t0)); lia ].
  change (Z.to_nat 0) with O. unfold Nat.iter. cbn [nat_rect negb app].
  apply Z.leb_le in Hm. destruct (power t0 <? 1) eqn:E1; [ apply Z.ltb_lt in E1; lia | ].
  destruct t0 as [v pw]. reflexivity.
Qed.

(** The derivative of order 0 of x + 1 is x. *)
Lemma derivative_of_order_0_x_plus_1 :
  Polynomial.derivative 0
    (mkPolynomial [mkMonomial 1%float [mkTerm x_id 1]; mkMonomial 1%float []] true) =
    Ok (mkPolynomial
          (List.filter (fun m => negb (is_constant m))
             [mkMonomial 1%float [mkTerm x_id 1]; mkMonomial 1%float []]) true).
Proof.
  apply (derivative_of_order_0
           (mkPolynomial [mkMonomial 1%float [mkTerm x_id 1]; mkMonomial 1%float []] true));
    reflexivity.
Defined.

Lemma getCoefficients_loop_length (ms : list Monomial) :
  forall v v',
    fold_left (fun acc m => let* coefficients := acc in
                 Polynomial.store coefficients (Polynomial.coefficient_index m) (coefficient m))
      ms (Ok v) = Ok v' ->
    length v' = length v.
Proof.
  induction ms as [|m ms IH]; intros v v' H; cbn [fold_left] in H.
  - now inversion H.
  - cbn [bind] in H. unfold Polynomial.store in H.
    destruct ((0 <=? _) && (_ <? _)).
    + apply IH in H. now rewrite length_insert in H.
    + exfalso. clear IH. induction ms as [|m' ms IH']; cbn in H; [ discriminate | auto ].
Qed.

(** X21. When [getCoefficients] returns, the polynomial is flagged univariate
    and the vector has one entry more than the degree of the polynomial. *)
Theorem getCoefficients_length (p : Polynomial) (v : list float) :
  Polynomial.getCoefficients p = Ok v ->
  is_univariate p = true /\
  Z.of_nat (length v) = Polynomial.getDegree p + 1 /\ 0 <= Polynomial.getDegree p.
Proof.
  unfold Polynomial.getCoefficients. intros H.
  destruct (is_univariate p); [ | discriminate ]. cbn [negb] in H.
  apply getCoefficients_loop_length in H. rewrite repeat_length in H.
  destruct (getDegree_loop_ge (monomials p) 0) as [Hd _].
  change (fold_left Polynomial.max_degree_step (monomials p) 0)
    with (Polynomial.getDegree p) in Hd.
  split; [ reflexivity | ]. lia.
Qed.

(** The two coefficients of x - 1. *)
Lemma getCoefficients_length_x_minus_1 :
  is_univariate x_minus_1 = true /\
  Z.of_nat (length [(-1)%float; 1%float]) = Polynomial.getDegree x_minus_1 + 1 /\
  0 <= Polynomial.getDegree x_minus_1.
Proof. apply (getCoefficients_length x_minus_1 [(-1)%float; 1%float]). reflexivity. Defined.


Lemma one_term_index (m : Monomial) :
  one_term m = true ->
  Polynomial.coefficient_index m = Monomial.getDegree m /\ 0 <= Monomial.getDegree m.
Proof.
  unfold one_term, Polynomial.coefficient_index, Monomial.getDegree.
  destruct (terms m) as [|t [|t' ts]]; intros H; [ split; [ reflexivity | lia ] | | discriminate ].
  apply Z.leb_le in H. cbn. split; [ reflexivity | lia ].
Qed.

Lemma one_term_integrate_monomial (x : VarType) (m : Monomial) :
  monomial_in x m = true -> one_term (integrate_monomial x m) = true.
Proof.
  unfold monomial_in, integrate_monomial, one_term.
  destruct (terms m) as [|t [|t' ts]]; intros H; [ reflexivity | | discriminate ].
  apply andb_prop in H as [H _]. apply andb_prop in H as [_ H]. apply Z.leb_le in H.
  cbn. apply Z.leb_le. lia.
Qed.

Lemma getDegree_loop_le (ms : list Monomial) :
  forall d bound,
    d <= bound -> Forall (fun m => Monomial.getDegree m <= bound) ms ->
    fold_left Polynomial.max_degree_step ms d <= bound.
Proof.
  induction ms as [|m ms IH]; intros d bound Hd Hall; cbn [fold_left]; [ exact Hd | ].
  inversion Hall as [|? ? Hm Hrest]; subst. apply IH; [ | exact Hrest ].
  unfold Polynomial.max_degree_step. cbv zeta.
  destruct (d <? Monomial.getDegree m); lia.
Qed.

Lemma getDegree_integrate_monomial (x : VarType) (m : Monomial) :
  monomial_in x m = true ->
  Monomial.getDegree (integrate_monomial x m) = Monomial.getDegree m + 1.
Proof.
  unfold monomial_in, integrate_monomial, Monomial.getDegree.
  destruct (terms m) as [|t [|t' ts]]; intros H; [ reflexivity | reflexivity | discriminate ].
Qed.

(** X22. The integral of a polynomial in one variable x that holds a power of
    x, of a degree below INT_MAX - 1, has one monomial more than the
    polynomial; its vector of coefficients exists, has a size that an [int]
    holds, and the integration constant is its entry of order 0. *)
Theorem integral_constant_is_coefficient_0 (x : VarType) (c : float) (p : Polynomial) :
  1 <= x -> univariate_in x p = true -> has_variable p = true ->
  Polynomial.getDegree p < INT_MAX - 1 ->
  exists q v,
    Polynomial.integral c p = Ok q /\
    length (monomials q) = S (length (monomials p)) /\
    Polynomial.getCoefficients q = Ok v /\
    Z.of_nat (length v) <= INT_MAX /\
    v !! O = Some c.
Proof.
  intros Hx Huni Hvar Hbound. apply andb_prop in Huni as [Hflag Hall].
  assert (Eint : Polynomial.integral c p =
                 Ok (mkPolynomial (map (integrate_monomial x) (monomials p) ++ [mkMonomial c []])
                       true)).
  { unfold Polynomial.integral. rewrite Hflag. cbn [negb].
    rewrite (integral_loop_in x); [ reflexivity | exact Hx | | exact Hvar ].
    cbn [app]. rewrite forallb_forall in Hall |- *.
    intros m Hm. now apply monomial_in_leads_with, Hall. }
  set (ms := map (integrate_monomial x) (monomials p)) in *.
  set (q := mkPolynomial (ms ++ [mkMonomial c []]) true).
  assert (Hone : forall m, In m (ms ++ [mkMonomial c []]) -> one_term m = true).
  { intros m Hm. apply in_app_or in Hm as [Hm | [<- | []]]; [ | reflexivity ].
    apply in_map_iff in Hm as (m0 & <- & Hm0). apply (one_term_integrate_monomial x).
    rewrite forallb_forall in Hall. now apply Hall. }
  destruct (getDegree_loop_ge (monomials q) 0) as [Hd Hdeg].
  change (fold_left Polynomial.max_degree_step (monomials q) 0)
    with (Polynomial.getDegree q) in Hd, Hdeg.
  assert (Hrange : Forall (fun m => 0 <= Polynomial.coefficient_index m <
                                    Z.of_nat (length (repeat 0%float
                                                        (Z.to_nat (Polynomial.getDegree q + 1)))))
                     (monomials q)).
  { rewrite repeat_length. rewrite List.Forall_forall in Hdeg |- *. intros m Hm.
    destruct (one_term_index m (Hone m Hm)) as [-> Hge]. specialize (Hdeg m Hm). lia. }
  cbn [monomials q] in Hrange. apply Forall_app in Hrange as [Hrange _].
  destruct (getCoefficients_loop_ok ms _ Hrange) as [v0 Hv0].
  pose proof (getCoefficients_loop_length _ _ _ Hv0) as Hlen. rewrite repeat_length in Hlen.
  assert (Hq : Polynomial.getDegree q <= Polynomial.getDegree p + 1).
  { destruct (getDegree_loop_ge (monomials p) 0) as [Hp0 Hpdeg].
    change (fold_left Polynomial.max_degree_step (monomials p) 0)
      with (Polynomial.getDegree p) in Hp0, Hpdeg.
    unfold Polynomial.getDegree at 1. apply getDegree_loop_le; [ lia | ].
    cbn [monomials q]. apply Forall_app. split.
    - subst ms. rewrite List.Forall_forall in Hpdeg |- *. intros m Hm.
      apply in_map_iff in Hm as (m0 & <- & Hm0).
      rewrite forallb_forall in Hall.
      rewrite (getDegree_integrate_monomial x m0 (Hall m0 Hm0)).
      specialize (Hpdeg m0 Hm0). lia.
    - constructor; [ cbn; lia | constructor ]. }
  exists q, (<[O := c]> v0). split; [ exact Eint | split; [ | split; [ | split ] ] ].
  - cbn [monomials q]. subst ms. rewrite length_app, length_map. cbn. lia.
  - unfold Polynomial.getCoefficients. cbn [is_univariate q negb monomials].
    rewrite fold_left_app. fold q. rewrite Hv0. cbn [fold_left bind].
    unfold Polynomial.store, Polynomial.coefficient_index. cbn [terms coefficient].
    destruct (0 <? Z.of_nat (length v0)) eqn:E; [ reflexivity | apply Z.ltb_ge in E; lia ].
  - rewrite length_insert, Hlen. unfold INT_MAX in *. lia.
  - apply list_lookup_insert_eq. lia.
Qed.

(** The integral of 3*x^2 + 5 with the constant 7. *)
Lemma integral_constant_is_coefficient_0_example :
  let p := mkPolynomial [mkMonomial 3%float [mkTerm x_id 2]; mkMonomial 5%float []] true in
  exists q v,
    Polynomial.integral 7%float p = Ok q /\
    length (monomials q) = S (length (monomials p)) /\
    Polynomial.getCoefficients q = Ok v /\
    Z.of_nat (length v) <= INT_MAX /\
    v !! O = Some 7%float.
Proof.
  intros p. apply (integral_constant_is_coefficient_0 x_id 7%float p);
    [ unfold x_id; lia | reflexivity | reflexivity | reflexivity ].
Defined.

Section RootsProperties.

Variable polynomial_solver : list float -> list (float * float).

(** X23. [roots] does not call the solver for the degrees 0 and 1: a constant
    and the polynomial of no monomial have no root, and [k x + c] has the one
    root -c / k, whatever the order of its two monomials. *)
Theorem roots_of_degree_0_and_1 (x : VarType) (k c : float) :
  Polynomial.roots polynomial_solver (Polynomial.of_scalar c) = Ok [] /\
  Polynomial.roots polynomial_solver (mkPolynomial [] true) = Ok [] /\
  Polynomial.roots polynomial_solver
    (mkPolynomial [mkMonomial k [mkTerm x 1]; mkMonomial c []] true) =
    Ok [((- c / k)%float, 0%float)] /\
  Polynomial.roots polynomial_solver
    (mkPolynomial [mkMonomial c []; mkMonomial k [mkTerm x 1]] true) =
    Ok [((- c / k)%float, 0%float)].
Proof. repeat split. Qed.

End RootsProperties.

(** ** sin and cos of a TrigPoly: errors, maps and sums *)

(** X24. The unary minus of a TrigPoly calls itself on its own argument before
    anything else: no depth of calls is enough for it to return, and
    [scalar - p], which starts with it, does not return either. *)
Theorem unary_minus_never_returns (fuel : nat) (p : TrigPoly) (scalar : float) :
  TrigPoly.neg_fuel fuel p = None /\ TrigPoly.scalar_sub_fuel fuel scalar p = None.
Proof.
  assert (H : TrigPoly.neg_fuel fuel p = None).
  { induction fuel as [|fuel IH]; [ reflexivity | ].
    cbn [TrigPoly.neg_fuel]. now rewrite IH. }
  split; [ exact H | ]. unfold TrigPoly.scalar_sub_fuel. now rewrite H.
Qed.

Lemma insert_range_same (m : SinCosMap) : TrigPoly.insert_range m m = m.
Proof. rewrite insert_range_union. apply (idemp_L (∪)). Qed.

Lemma bind_fuel_Ok {A B : Type} (o : option (outcome A)) (k : A -> option (outcome B)) (b : B) :
  bind_fuel o k = Some (Ok b) -> exists a, o = Some (Ok a) /\ k a = Some (Ok b).
Proof. destruct o as [[a| |]|]; cbn; intros H; try discriminate. now exists a. Qed.

Section SinCosProperties.

Variables std_sin std_cos : float -> float.

Lemma sin_fuel_S (fuel : nat) (p : TrigPoly) :
  TrigPoly.sin_fuel std_sin std_cos (S fuel) p =
    if 1 <? Polynomial.getDegree (poly p) then Some (Throw TrigPoly.sin_degree)
    else
      match monomials (poly p) with
      | [] => Some Undefined
      | [m0] => Some (TrigPoly.sin_monomial std_sin p m0)
      | m0 :: rest =>
          let a := mkTrigPoly (Polynomial.of_terms (coefficient m0) (terms m0)) (sin_cos_map p) in
          let b := mkTrigPoly (Polynomial.of_range rest) (sin_cos_map p) in
          call* sin_a := TrigPoly.sin_fuel std_sin std_cos fuel a in
          call* cos_b := TrigPoly.cos_fuel std_sin std_cos fuel b in
          call* cos_a := TrigPoly.cos_fuel std_sin std_cos fuel a in
          call* sin_b := TrigPoly.sin_fuel std_sin std_cos fuel b in
          Some (Ok (TrigPoly.add (TrigPoly.mul sin_a cos_b) (TrigPoly.mul cos_a sin_b)))
      end.
Proof. reflexivity. Qed.

Lemma cos_fuel_S (fuel : nat) (p : TrigPoly) :
  TrigPoly.cos_fuel std_sin std_cos (S fuel) p =
    if 1 <? Polynomial.getDegree (poly p) then Some (Throw TrigPoly.cos_degree)
    else
      match monomials (poly p) with
      | [] => Some Undefined
      | [m0] => Some (TrigPoly.cos_monomial std_cos p m0)
      | m0 :: rest =>
          let a := mkTrigPoly (Polynomial.of_terms (coefficient m0) (terms m0)) (sin_cos_map p) in
          let b := mkTrigPoly (Polynomial.of_range rest) (sin_cos_map p) in
          call* cos_a := TrigPoly.cos_fuel std_sin std_cos fuel a in
          call* cos_b := TrigPoly.cos_fuel std_sin std_cos fuel b in
          call* sin_a := TrigPoly.sin_fuel std_sin std_cos fuel a in
          call* sin_b := TrigPoly.sin_fuel std_sin std_cos fuel b in
          Some (Ok (TrigPoly.sub (TrigPoly.mul cos_a cos_b) (TrigPoly.mul sin_a sin_b)))
      end.
Proof. reflexivity. Qed.

Lemma sin_cos_monomial_map (p r : TrigPoly) (m0 : Monomial) :
  (TrigPoly.sin_monomial std_sin p m0 = Ok r -> sin_cos_map r = sin_cos_map p) /\
  (TrigPoly.cos_monomial std_cos p m0 = Ok r -> sin_cos_map r = sin_cos_map p).
Proof.
  unfold TrigPoly.sin_monomial, TrigPoly.cos_monomial.
  destruct (terms m0) as [|t0 rest].
  - split; intros H; inversion H; reflexivity.
  - destruct (sin_cos_map p !! var t0) as [sc|]; [ | split; discriminate ].
    destruct (negb (PrimFloat.abs (coefficient m0) =? 1)%float); [ split; discriminate | ].
    split; intros H; inversion H; [ reflexivity | ].
    destruct (coefficient m0 =? -1)%float; reflexivity.
Qed.

Lemma sin_cos_fuel_map (fuel : nat) :
  forall p r,
    (TrigPoly.sin_fuel std_sin std_cos fuel p = Some (Ok r) -> sin_cos_map r = sin_cos_map p) /\
    (TrigPoly.cos_fuel std_sin std_cos fuel p = Some (Ok r) -> sin_cos_map r = sin_cos_map p).
Proof.
  induction fuel as [|fuel IH]; intros p r; [ split; discriminate | ].
  rewrite sin_fuel_S, cos_fuel_S.
  destruct (1 <? Polynomial.getDegree (poly p)); [ split; discriminate | ].
  destruct (monomials (poly p)) as [|m0 [|m1 rest]] eqn:Ems; [ split; discriminate | | ].
  - split; intros H; injection H as H';
      [ exact (proj1 (sin_cos_monomial_map p r m0) H')
      | exact (proj2 (sin_cos_monomial_map p r m0) H') ].
  - cbv zeta. split; intros H;
      repeat (apply bind_fuel_Ok in H as (? & ? & H));
      inversion H; subst r;
      repeat match goal with
             | E : TrigPoly.sin_fuel _ _ _ _ = Some (Ok _) |- _ =>
                 apply (proj1 (IH _ _)) in E; cbn [sin_cos_map] in E
             | E : TrigPoly.cos_fuel _ _ _ _ = Some (Ok _) |- _ =>
                 apply (proj2 (IH _ _)) in E; cbn [sin_cos_map] in E
             end;
      unfold TrigPoly.add, TrigPoly.sub, TrigPoly.mul, TrigPoly.add_assign, TrigPoly.sub_assign,
        TrigPoly.mul_assign; cbn [sin_cos_map];
      repeat match goal with E : sin_cos_map _ = sin_cos_map p |- _ => rewrite E; clear E end;
      now rewrite !insert_range_same.
Qed.

(** X25. When [sin] or [cos] returns, the result carries the sin/cos map of the
    argument, unchanged. *)
Theorem sin_cos_keep_the_map (p r : TrigPoly) :
  (TrigPoly.sin std_sin std_cos p = Some (Ok r) -> sin_cos_map r = sin_cos_map p) /\
  (TrigPoly.cos std_sin std_cos p = Some (Ok r) -> sin_cos_map r = sin_cos_map p).
Proof. apply sin_cos_fuel_map. Qed.

(** X26. [sin] and [cos] of a single monomial of degree at most 1 with a term:
    when the variable of its first term has no entry in the map, both throw
    the message of [sin] (the one of [cos] names the sin as well); when it has
    one and the coefficient is of absolute value other than 1, both throw
    [PleaseImplementMe]. *)
Theorem sin_cos_errors (p : TrigPoly) (m0 : Monomial) (t0 : Term) (rest : list Term) :
  monomials (poly p) = [m0] -> terms m0 = t0 :: rest -> Polynomial.getDegree (poly p) <= 1 ->
  (sin_cos_map p !! var t0 = None ->
   TrigPoly.sin std_sin std_cos p = Some (Throw TrigPoly.not_in_map) /\
   TrigPoly.cos std_sin std_cos p = Some (Throw TrigPoly.not_in_map)) /\
  (is_Some (sin_cos_map p !! var t0) ->
   (PrimFloat.abs (coefficient m0) =? 1)%float = false ->
   TrigPoly.sin std_sin std_cos p = Some (Throw TrigPoly.please_implement) /\
   TrigPoly.cos std_sin std_cos p = Some (Throw TrigPoly.please_implement)).
Proof.
  intros Hms Ht Hdeg. unfold TrigPoly.sin, TrigPoly.cos. rewrite Hms.
  cbn [length TrigPoly.sin_fuel TrigPoly.cos_fuel].
  destruct (1 <? Polynomial.getDegree (poly p)) eqn:E; [ apply Z.ltb_lt in E; lia | ].
  rewrite Hms. unfold TrigPoly.sin_monomial, TrigPoly.cos_monomial. rewrite Ht.
  split.
  - intros ->. split; reflexivity.
  - intros [sc ->] ->. split; reflexivity.
Qed.

(** X27. For a variable v with the entry (s, c) in the map, sin(v) is s,
    sin(-v) is -s and cos(v) is c. *)
Theorem sin_cos_of_signed_variable (v : VarType) (entry : SinCosVars.t) (m : SinCosMap)
    (flag : bool) :
  m !! v = Some entry ->
  TrigPoly.sin std_sin std_cos (mkTrigPoly (mkPolynomial [mkMonomial 1%float [mkTerm v 1]] flag) m) =
    Some (Ok (mkTrigPoly
                (mkPolynomial [mkMonomial 1%float [mkTerm (SinCosVars.s entry) 1]] flag) m)) /\
  TrigPoly.sin std_sin std_cos
    (mkTrigPoly (mkPolynomial [mkMonomial (-1)%float [mkTerm v 1]] flag) m) =
    Some (Ok (mkTrigPoly
                (mkPolynomial [mkMonomial (-1)%float [mkTerm (SinCosVars.s entry) 1]] flag) m)) /\
  TrigPoly.cos std_sin std_cos (mkTrigPoly (mkPolynomial [mkMonomial 1%float [mkTerm v 1]] flag) m) =
    Some (Ok (mkTrigPoly
                (mkPolynomial [mkMonomial 1%float [mkTerm (SinCosVars.c entry) 1]] flag) m)).
Proof.
  intros Hv. unfold TrigPoly.sin, TrigPoly.cos.
  cbn [poly monomials length TrigPoly.sin_fuel TrigPoly.cos_fuel].
  change (1 <? Polynomial.getDegree _) with false. cbn iota.
  unfold TrigPoly.sin_monomial, TrigPoly.cos_monomial.
  cbn [terms var sin_cos_map coefficient poly]. rewrite Hv.
  unfold Polynomial.subs. cbn [monomials map terms var power coefficient is_univariate].
  rewrite Z.eqb_refl. repeat split.
Qed.

End SinCosProperties.

Lemma update_univariate_false (m : Monomial) (unique_var : VarType) :
  fst (Polynomial.update_univariate m false unique_var) = false.
Proof.
  unfold Polynomial.update_univariate. destruct (terms m) as [|t0 rest]; [ reflexivity | ].
  destruct (1 <? length (t0 :: rest))%nat, (negb (var t0 =? unique_var)), (0 <? unique_var);
    reflexivity.
Qed.

Lemma makeMonomialsUnique_pair (a b : Monomial) :
  Polynomial.makeMonomialsUnique (mkPolynomial [a; b] false) = mkPolynomial [a; b] false.
Proof.
  unfold Polynomial.makeMonomialsUnique.
  cbn [monomials is_univariate length Polynomial.makeMonomialsUnique_loop lookup list_lookup].
  pose proof (update_univariate_false b 0) as Hb.
  destruct (Polynomial.update_univariate b false 0) as [u1 v1]. cbn in Hb. subst u1.
  cbn [Nat.sub take find_index].
  pose proof (update_univariate_false a v1) as Ha.
  destruct (Polynomial.update_univariate a false v1) as [u0 v0]. cbn in Ha. subst u0.
  reflexivity.
Qed.

Lemma of_range_single (m0 : Monomial) (t : Term) :
  terms m0 = [t] -> Polynomial.of_range [m0] = mkPolynomial [m0] true.
Proof.
  intros Ht. unfold Polynomial.of_range, Polynomial.makeMonomialsUnique.
  cbn [monomials is_univariate length Polynomial.makeMonomialsUnique_loop lookup list_lookup].
  unfold Polynomial.update_univariate. rewrite Ht. cbn [length Nat.ltb Nat.leb].
  destruct (negb (var t =? 0)); reflexivity.
Qed.

Lemma mul_assign_of_two_variables (a b : VarType) (flag flag' : bool) :
  a <> b ->
  Polynomial.mul_assign (mkPolynomial [mkMonomial 1%float [mkTerm a 1]] flag)
    (mkPolynomial [mkMonomial 1%float [mkTerm b 1]] flag') =
  mkPolynomial [mkMonomial 1%float [mkTerm a 1; mkTerm b 1]] false.
Proof.
  intros Hab. apply Z.eqb_neq in Hab.
  unfold Polynomial.mul_assign, Polynomial.makeMonomialsUnique.
  unfold Polynomial.multiply_monomials, Polynomial.multiply_terms.
  cbn [monomials flat_map map app coefficient terms fold_left find_index var is_univariate
       power].
  rewrite Hab. cbn [option_map app length Polynomial.makeMonomialsUnique_loop lookup
                    list_lookup].
  unfold Polynomial.update_univariate. cbn [terms length Nat.ltb Nat.leb var].
  destruct (negb (a =? 0)); reflexivity.
Qed.

Section SinCosOfSums.

Variables std_sin std_cos : float -> float.

Lemma sin_cos_fuel_of_variable (fuel : nat) (v : VarType) (entry : SinCosVars.t)
    (m : SinCosMap) (flag : bool) :
  m !! v = Some entry ->
  TrigPoly.sin_fuel std_sin std_cos (S fuel)
    (mkTrigPoly (mkPolynomial [mkMonomial 1%float [mkTerm v 1]] flag) m) =
    Some (Ok (mkTrigPoly
                (mkPolynomial [mkMonomial 1%float [mkTerm (SinCosVars.s entry) 1]] flag) m)) /\
  TrigPoly.cos_fuel std_sin std_cos (S fuel)
    (mkTrigPoly (mkPolynomial [mkMonomial 1%float [mkTerm v 1]] flag) m) =
    Some (Ok (mkTrigPoly
                (mkPolynomial [mkMonomial 1%float [mkTerm (SinCosVars.c entry) 1]] flag) m)).
Proof.
  intros Hv. rewrite sin_fuel_S, cos_fuel_S. cbn [poly monomials].
  change (1 <? Polynomial.getDegree _) with false. cbn iota.
  unfold TrigPoly.sin_monomial, TrigPoly.cos_monomial.
  cbn [terms var sin_cos_map coefficient poly]. rewrite Hv.
  unfold Polynomial.subs. cbn [monomials map terms var power coefficient is_univariate].
  rewrite Z.eqb_refl. split; reflexivity.
Qed.

Lemma sin_cos_fuel_of_unmapped (fuel : nat) (v : VarType) (k : float) (m : SinCosMap)
    (flag : bool) :
  m !! v = None ->
  TrigPoly.sin_fuel std_sin std_cos (S fuel)
    (mkTrigPoly (mkPolynomial [mkMonomial k [mkTerm v 1]] flag) m) =
    Some (Throw TrigPoly.not_in_map) /\
  TrigPoly.cos_fuel std_sin std_cos (S fuel)
    (mkTrigPoly (mkPolynomial [mkMonomial k [mkTerm v 1]] flag) m) =
    Some (Throw TrigPoly.not_in_map).
Proof.
  intros Hv. rewrite sin_fuel_S, cos_fuel_S. cbn [poly monomials].
  change (1 <? Polynomial.getDegree _) with false. cbn iota.
  unfold TrigPoly.sin_monomial, TrigPoly.cos_monomial.
  cbn [terms var sin_cos_map coefficient poly]. rewrite Hv. split; reflexivity.
Qed.

(** X28. The angle-sum expansion: for two variables x and y with the entries
    (sx, cx) and (sy, cy), the four placeholders pairwise different across
    the two entries, sin(x + y) is sx*cy + cx*sy and cos(x + y) is
    cx*cy - sx*sy, with the map of the argument. *)
Theorem sin_cos_of_a_sum (x y : VarType) (ex ey : SinCosVars.t) (m : SinCosMap)
    (flag : bool) :
  m !! x = Some ex -> m !! y = Some ey ->
  SinCosVars.s ex <> SinCosVars.c ey -> SinCosVars.c ex <> SinCosVars.s ey ->
  SinCosVars.c ex <> SinCosVars.c ey -> SinCosVars.s ex <> SinCosVars.s ey ->
  let p := mkPolynomial [mkMonomial 1%float [mkTerm x 1]; mkMonomial 1%float [mkTerm y 1]] flag in
  TrigPoly.sin std_sin std_cos (mkTrigPoly p m) =
    Some (Ok (mkTrigPoly
                (mkPolynomial
                   [mkMonomial 1%float [mkTerm (SinCosVars.s ex) 1; mkTerm (SinCosVars.c ey) 1];
                    mkMonomial 1%float [mkTerm (SinCosVars.c ex) 1; mkTerm (SinCosVars.s ey) 1]]
                   false) m)) /\
  TrigPoly.cos std_sin std_cos (mkTrigPoly p m) =
    Some (Ok (mkTrigPoly
                (mkPolynomial
                   [mkMonomial 1%float [mkTerm (SinCosVars.c ex) 1; mkTerm (SinCosVars.c ey) 1];
                    mkMonomial (-1)%float
                      [mkTerm (SinCosVars.s ex) 1; mkTerm (SinCosVars.s ey) 1]]
                   false) m)).
Proof.
  intros Hx Hy Hsc Hcs Hcc Hss p. subst p.
  unfold TrigPoly.sin, TrigPoly.cos. cbn [poly monomials length].
  rewrite sin_fuel_S, cos_fuel_S. cbn [poly monomials sin_cos_map coefficient terms].
  change (1 <? Polynomial.getDegree _) with false. cbn iota. cbv zeta.
  change (Polynomial.of_terms 1 [mkTerm x 1])
    with (mkPolynomial [mkMonomial 1%float [mkTerm x 1]] true).
  rewrite (of_range_single _ (mkTerm y 1)) by reflexivity.
  destruct (sin_cos_fuel_of_variable 1 x ex m true Hx) as [-> ->].
  destruct (sin_cos_fuel_of_variable 1 y ey m true Hy) as [-> ->].
  cbn [bind_fuel].
  unfold TrigPoly.add, TrigPoly.sub, TrigPoly.mul, TrigPoly.add_assign, TrigPoly.sub_assign,
    TrigPoly.mul_assign.
  cbn [poly sin_cos_map]. rewrite !insert_range_same.
  rewrite !mul_assign_of_two_variables by assumption.
  unfold Polynomial.add_assign, Polynomial.sub_assign.
  cbn [monomials is_univariate app map scale coefficient terms].
  rewrite !makeMonomialsUnique_pair. split; reflexivity.
Qed.

(** X29. [TrigPoly x(q, s, c)] on three single variables registers the
    variables of s and c for the variable of q, and then [sin(x)] is s and
    [cos(x)] is c. *)
Theorem sin_cos_of_the_constructed (vq vs vc : VarType) :
  let t := mkTrigPoly (Polynomial.of_variable 1%float vq) {[ vq := SinCosVars.mk vs vc ]} in
  TrigPoly.of_sin_cos (Polynomial.of_variable 1%float vq) (Polynomial.of_variable 1%float vs)
    (Polynomial.of_variable 1%float vc) = Ok t /\
  TrigPoly.sin std_sin std_cos t =
    Some (Ok (mkTrigPoly (Polynomial.of_variable 1%float vs) (sin_cos_map t))) /\
  TrigPoly.cos std_sin std_cos t =
    Some (Ok (mkTrigPoly (Polynomial.of_variable 1%float vc) (sin_cos_map t))).
Proof.
  intros t. split; [ reflexivity | ].
  assert (Hv : sin_cos_map t !! vq = Some (SinCosVars.mk vs vc)) by apply lookup_singleton_eq.
  exact (sin_cos_fuel_of_variable 1 vq _ _ true Hv).
Qed.

(** X30. The constructor tests the degrees only: [q = x + k] has degree 1 and
    is accepted, its entry is stored under the key 0 that
    [getSimpleVariable] returns for a polynomial of two monomials, and [sin]
    and [cos] of the result throw for the variable x, which has no entry. *)
Theorem of_sin_cos_of_a_sum (x vs vc : VarType) (k : float) :
  x <> 0 ->
  let q := mkPolynomial [mkMonomial 1%float [mkTerm x 1]; mkMonomial k []] true in
  let t := mkTrigPoly q {[ 0 := SinCosVars.mk vs vc ]} in
  TrigPoly.of_sin_cos q (Polynomial.of_variable 1%float vs) (Polynomial.of_variable 1%float vc) =
    Ok t /\
  TrigPoly.sin std_sin std_cos t = Some (Throw TrigPoly.not_in_map) /\
  TrigPoly.cos std_sin std_cos t = Some (Throw TrigPoly.not_in_map).
Proof.
  intros Hx q t. split; [ reflexivity | ].
  assert (Hnone : sin_cos_map t !! x = None) by (apply lookup_singleton_ne; congruence).
  subst t q. unfold TrigPoly.sin, TrigPoly.cos. cbn [poly monomials length].
  rewrite sin_fuel_S, cos_fuel_S. cbn [poly monomials coefficient terms].
  change (1 <? Polynomial.getDegree _) with false. cbn iota. cbv zeta.
  change (Polynomial.of_terms 1 [mkTerm x 1])
    with (mkPolynomial [mkMonomial 1%float [mkTerm x 1]] true).
  destruct (sin_cos_fuel_of_unmapped 1 x 1%float _ true Hnone) as [-> ->].
  split; reflexivity.
Qed.

End SinCosOfSums.

(** ** The properties at the polynomials of the examples *)

(** The name x is one character of the alphabet. *)
Lemma valid_name_x : valid_name "x".
Proof. split; [ cbn; lia | reflexivity ]. Defined.

(** Injectivity at the identifier of x1. *)
Lemma variableNameToId_injective_x1 : "x"%string = "x"%string /\ 1 = 1.
Proof.
  apply (variableNameToId_injective "x" "x" 1 1 x_id);
    [ exact valid_name_x | exact valid_name_x | | | reflexivity | reflexivity ];
    change Naming.maxId with 2325; lia.
Defined.

(** The indices 0 and maxId + 1 with the name x. *)
Lemma variableNameToId_index_out_of_range_x :
  Naming.variableNameToId "x" 0 = Throw "m must be >0" /\
  Naming.variableNameToId "x" 2326 = Throw "name exceeds max ID".
Proof.
  split.
  - apply (variableNameToId_index_out_of_range "x" 0 valid_name_x). lia.
  - apply (variableNameToId_index_out_of_range "x" 2326 valid_name_x).
    change Naming.maxId with 2325. lia.
Defined.

(** The identifier of x1 is even and the next one decodes alike. *)
Lemma variableNameToId_even_nonzero_x1 :
  exists k,
    Naming.variableNameToId "x" 1 = Ok (2 * k) /\ 1 <= k /\ 2 * k < UINT_MAX /\
    Naming.idToVariableName (2 * k + 1) = Naming.idToVariableName (2 * k).
Proof.
  apply (variableNameToId_even_nonzero "x" 1 valid_name_x).
  change Naming.maxId with 2325. lia.
Defined.

(** The empty name with the index 1 gets the identifier 0. *)
Lemma variableNameToId_empty_name_1 :
  Naming.isValidVariableName EmptyString = false /\
  exists id0 id1,
    Naming.variableNameToId EmptyString 1 = Ok id0 /\
    Naming.variableNameToId "@" 1 = Ok id1 /\
    id0 = 2 * Naming.kMaxNamePart * (1 - 1) /\
    id1 = id0 + 2 /\
    Naming.idToVariableName id0 = ("@" ++ Naming.to_string 1)%string /\
    Naming.idToVariableName id1 = ("@" ++ Naming.to_string 1)%string.
Proof. apply (variableNameToId_empty_name 1). change Naming.maxId with 2325. lia. Defined.

(** A power of x and a power of y are different terms, in different variables. *)
Lemma NoDup_x_y (a b : PowerType) : NoDup [mkTerm x_id a; mkTerm y_id b].
Proof.
  apply NoDup_cons. split.
  - intros H. apply list_elem_of_singleton in H. discriminate H.
  - apply NoDup_singleton.
Defined.

Lemma NoDup_var_x_y (a b : PowerType) : NoDup (map var [mkTerm x_id a; mkTerm y_id b]).
Proof.
  apply NoDup_cons. split.
  - intros H. apply list_elem_of_singleton in H. discriminate H.
  - apply NoDup_singleton.
Defined.

(** x*y^2 against y^2*x. *)
Lemma hasSameExponents_permutation_xy_yx :
  let m := mkMonomial 1%float [mkTerm x_id 1; mkTerm y_id 2] in
  let other := mkMonomial 3%float [mkTerm y_id 2; mkTerm x_id 1] in
  Monomial.hasSameExponents m other = true <-> Permutation (terms m) (terms other).
Proof.
  intros m other. apply (hasSameExponents_permutation m other). exact (NoDup_x_y 1 2).
Defined.

(** The monomial 3*x^2*y from its terms. *)
Lemma of_terms_distinct_variables_x2_y :
  Polynomial.of_terms 3%float [mkTerm x_id 2; mkTerm y_id 1] =
    mkPolynomial [mkMonomial 3%float [mkTerm x_id 2; mkTerm y_id 1]] false.
Proof.
  apply (of_terms_distinct_variables 3%float [mkTerm x_id 2; mkTerm y_id 1]).
  exact (NoDup_var_x_y 2 1).
Defined.

(** The terms [x, x^2] and [x, y^3, x^2]. *)
Lemma of_terms_duplicate_variables_x_y :
  Polynomial.of_terms 1%float [mkTerm x_id 1; mkTerm x_id 2] =
    mkPolynomial [mkMonomial 1%float [mkTerm x_id 1; mkTerm x_id 2]] true /\
  Polynomial.of_terms 1%float [mkTerm x_id 1; mkTerm y_id 3; mkTerm x_id 2] =
    mkPolynomial [mkMonomial 1%float [mkTerm x_id (1 + 2); mkTerm y_id 3]] false.
Proof.
  apply (of_terms_duplicate_variables 1%float x_id y_id 1 2 3);
    [ discriminate | unfold int_range, INT_MIN, INT_MAX; lia ].
Defined.

(** The variables of x * y. *)
Lemma getVariables_mul_x_y :
  Polynomial.getVariables (Polynomial.mul_assign poly_x poly_y) =
    Polynomial.getVariables poly_x ∪ Polynomial.getVariables poly_y.
Proof. apply (getVariables_mul poly_x poly_y); discriminate. Defined.

(** The only variable of x - 1 is x. *)
Lemma positive_variables_x_minus_1 : positive_variables (monomials x_minus_1).
Proof.
  intros m t Hm Ht. change (monomials x_minus_1)
    with [mkMonomial 1%float [mkTerm x_id 1]; mkMonomial (-1)%float []] in Hm.
  apply elem_of_cons in Hm as [-> | Hm].
  - apply list_elem_of_singleton in Ht. subst t. reflexivity.
  - apply list_elem_of_singleton in Hm. subst m. apply elem_of_nil in Ht. destruct Ht.
Defined.

(** The flag of x - 1. *)
Lemma is_univariate_after_deduplication_x_minus_1 :
  (is_univariate (Polynomial.makeMonomialsUnique x_minus_1) = true ->
   is_univariate x_minus_1 = true /\
   exists x, forall m, m ∈ monomials (Polynomial.makeMonomialsUnique x_minus_1) -> power_of x m) /\
  (is_univariate x_minus_1 = true ->
   (exists x, 0 < x /\ forall m, m ∈ monomials x_minus_1 -> power_of x m) ->
   is_univariate (Polynomial.makeMonomialsUnique x_minus_1) = true).
Proof.
  apply (is_univariate_after_deduplication x_minus_1). exact positive_variables_x_minus_1.
Defined.

(** The degree in x of 2*x^2*y times 3*x*y^3. *)
Lemma multiply_monomials_adds_degrees_x :
  let a := mkMonomial 2%float [mkTerm x_id 2; mkTerm y_id 1] in
  let b := mkMonomial 3%float [mkTerm x_id 1; mkTerm y_id 3] in
  Monomial.getDegreeOf (Polynomial.multiply_monomials a b) x_id =
    Monomial.getDegreeOf a x_id + Monomial.getDegreeOf b x_id.
Proof.
  intros a b. apply (multiply_monomials_adds_degrees a b x_id); [ exact (NoDup_var_x_y 1 3) | ].
  repeat constructor; cbn; unfold INT_MIN, INT_MAX; lia.
Defined.

(** 6*x^2*y divided by 2*x. *)
Lemma factor_subtracts_degrees_6x2y_by_2x :
  let m := mkMonomial 6%float [mkTerm x_id 2; mkTerm y_id 1] in
  let divisor := mkMonomial 2%float [mkTerm x_id 1] in
  Monomial.getDegreeOf (Monomial.factor m divisor) x_id + Monomial.getDegreeOf divisor x_id =
    Monomial.getDegreeOf m x_id /\
  coefficient (Monomial.factor m divisor) = (coefficient m / coefficient divisor)%float.
Proof.
  intros m divisor. apply (factor_subtracts_degrees m divisor x_id).
  - exact (NoDup_var_x_y 2 1).
  - discriminate.
Defined.

(** sin and cos of x with an empty map. *)
Lemma sin_cos_errors_unmapped_x :
  TrigPoly.sin not_called not_called (mkTrigPoly poly_x ∅) = Some (Throw TrigPoly.not_in_map) /\
  TrigPoly.cos not_called not_called (mkTrigPoly poly_x ∅) = Some (Throw TrigPoly.not_in_map).
Proof.
  apply (sin_cos_errors not_called not_called (mkTrigPoly poly_x ∅)
           (mkMonomial 1%float [mkTerm x_id 1]) (mkTerm x_id 1) []);
    [ reflexivity | reflexivity | discriminate | reflexivity ].
Defined.

(** sin(x), sin(-x) and cos(x) with the map of [trig_x]. *)
Lemma sin_cos_of_signed_variable_x :
  let m := sin_cos_map trig_x in
  TrigPoly.sin not_called not_called
    (mkTrigPoly (mkPolynomial [mkMonomial 1%float [mkTerm x_id 1]] true) m) =
    Some (Ok (mkTrigPoly (mkPolynomial [mkMonomial 1%float [mkTerm s_id 1]] true) m)) /\
  TrigPoly.sin not_called not_called
    (mkTrigPoly (mkPolynomial [mkMonomial (-1)%float [mkTerm x_id 1]] true) m) =
    Some (Ok (mkTrigPoly (mkPolynomial [mkMonomial (-1)%float [mkTerm s_id 1]] true) m)) /\
  TrigPoly.cos not_called not_called
    (mkTrigPoly (mkPolynomial [mkMonomial 1%float [mkTerm x_id 1]] true) m) =
    Some (Ok (mkTrigPoly (mkPolynomial [mkMonomial 1%float [mkTerm c_id 1]] true) m)).
Proof.
  intros m.
  apply (sin_cos_of_signed_variable not_called not_called x_id (SinCosVars.mk s_id c_id) m true).
  reflexivity.
Defined.

(** sin(x + y) and cos(x + y) when x and y are both registered. *)
Lemma sin_cos_of_a_sum_x_y :
  let m : SinCosMap :=
    <[ y_id := SinCosVars.mk 2 4 ]> {[ x_id := SinCosVars.mk s_id c_id ]} in
  let p := mkPolynomial [mkMonomial 1%float [mkTerm x_id 1]; mkMonomial 1%float [mkTerm y_id 1]]
             false in
  TrigPoly.sin not_called not_called (mkTrigPoly p m) =
    Some (Ok (mkTrigPoly
                (mkPolynomial
                   [mkMonomial 1%float [mkTerm s_id 1; mkTerm 4 1];
                    mkMonomial 1%float [mkTerm c_id 1; mkTerm 2 1]] false) m)) /\
  TrigPoly.cos not_called not_called (mkTrigPoly p m) =
    Some (Ok (mkTrigPoly
                (mkPolynomial
                   [mkMonomial 1%float [mkTerm c_id 1; mkTerm 4 1];
                    mkMonomial (-1)%float [mkTerm s_id 1; mkTerm 2 1]] false) m)).
Proof.
  intros m.
  apply (sin_cos_of_a_sum not_called not_called x_id y_id (SinCosVars.mk s_id c_id)
           (SinCosVars.mk 2 4) m false); solve [ reflexivity | discriminate ].
Defined.

(** [TrigPoly(x + 1, s, c)]. *)
Lemma of_sin_cos_of_a_sum_x_plus_1 :
  let q := mkPolynomial [mkMonomial 1%float [mkTerm x_id 1]; mkMonomial 1%float []] true in
  let t := mkTrigPoly q {[ 0 := SinCosVars.mk s_id c_id ]} in
  TrigPoly.of_sin_cos q (Polynomial.of_variable 1%float s_id)
    (Polynomial.of_variable 1%float c_id) = Ok t /\
  TrigPoly.sin not_called not_called t = Some (Throw TrigPoly.not_in_map) /\
  TrigPoly.cos not_called not_called t = Some (Throw TrigPoly.not_in_map).
Proof. apply (of_sin_cos_of_a_sum not_called not_called x_id s_id c_id 1%float). discriminate. Defined.
